(** * eva_gen front end: tokenizer, position resolver, parser and AST traversal

    A shallow embedding of [common/front_end/lexer.py],
    [common/front_end/parser.py] and [common/ast/nodes.py].

    Python [str] values are lists of characters ([list ascii], so texts of
    8-bit characters); Python integers that only ever hold lengths and
    offsets are [nat].  Exceptions are
    an explicit result type, the mutable lexer and parser objects are records
    threaded through a small state-and-exception monad, and the recursive
    descent is driven by a fuel argument. *)

From Stdlib Require Import String Ascii Arith ZArith Lia Bool QArith List.
Import ListNotations.

Local Open Scope nat_scope.
Local Open Scope list_scope.

(** A Python string literal. *)
Definition text (s : string) : list ascii := list_ascii_of_string s.

Definition newline : ascii := "010"%char.
Definition tab : ascii := "009"%char.
Definition space : ascii := " "%char.

(** ** The fragment of Python's [re] used by the rule table *)

Module Re.

(** Patterns as [re.compile] reads them.  Alternation is ordered and the
    quantifiers are greedy, as in Python's backtracking matcher. *)
Inductive regex : Type :=
| Eps
| Chr (c : ascii)
| Class (p : ascii -> bool)
| Seq (r1 r2 : regex)
| Alt (r1 r2 : regex)
| Opt (r : regex)
| Star (r : regex)
| Plus (r : regex).

(** A run of literal characters. *)
Fixpoint Lit (s : string) : regex :=
  match s with
  | EmptyString => Eps
  | String c EmptyString => Chr c
  | String c s' => Seq (Chr c) (Lit s')
  end.

(** Greedy repetition of [step]: every way of iterating it, longest first.
    An iteration that consumes nothing ends the repetition; [fuel] bounds
    the number of iterations by the length of the subject. *)
Fixpoint iterate (step : list ascii -> list nat) (fuel : nat)
         (s : list ascii) : list nat :=
  match fuel with
  | 0 => [0]
  | S fuel' =>
      flat_map (fun e =>
                  if e =? 0 then []
                  else map (Nat.add e) (iterate step fuel' (skipn e s)))
               (step s) ++ [0]
  end.

(** [ends r s]: the offsets at which a match of [r] anchored at the start of
    [s] can end, in the order in which the backtracking matcher tries
    them. *)
Fixpoint ends (r : regex) (s : list ascii) {struct r} : list nat :=
  match r with
  | Eps => [0]
  | Chr c =>
      match s with
      | a :: _ => if Ascii.eqb a c then [1] else []
      | [] => []
      end
  | Class p =>
      match s with
      | a :: _ => if p a then [1] else []
      | [] => []
      end
  | Seq r1 r2 =>
      flat_map (fun e1 => map (Nat.add e1) (ends r2 (skipn e1 s))) (ends r1 s)
  | Alt r1 r2 => ends r1 s ++ ends r2 s
  | Opt r1 => ends r1 s ++ [0]
  | Star r1 => iterate (ends r1) (length s) s
  | Plus r1 =>
      flat_map (fun e1 =>
                  map (Nat.add e1)
                      (iterate (ends r1) (length s) (skipn e1 s)))
               (ends r1 s)
  end.

(** [pattern.match(s)]: [None], or [Some e] with [e = m.end(0)].  The match
    is anchored, so [m.start(0)] is always [0]. *)
Definition re_match (r : regex) (s : list ascii) : option nat :=
  hd_error (ends r s).

Definition in_range (lo hi : ascii) (c : ascii) : bool :=
  (nat_of_ascii lo <=? nat_of_ascii c) && (nat_of_ascii c <=? nat_of_ascii hi).

Definition digit (c : ascii) : bool := in_range "0" "9" c.
Definition hex_digit (c : ascii) : bool := in_range "0" "9" c || in_range "A" "F" c.
Definition oct_digit (c : ascii) : bool := in_range "0" "7" c.
Definition ident_start (c : ascii) : bool :=
  in_range "a" "z" c || in_range "A" "Z" c || Ascii.eqb c "_".
Definition ident_char (c : ascii) : bool :=
  in_range "a" "z" c || in_range "A" "Z" c || in_range "0" "9" c || Ascii.eqb c "_".
Definition blank (c : ascii) : bool :=
  Ascii.eqb c space || Ascii.eqb c tab || Ascii.eqb c newline.

End Re.

Import Re.

(** ** lexer.py *)

Record LineCol : Type := mkLineCol { line : nat; col : nat }.

Inductive exn : Type :=
| ParseError (what : list ascii) (position : LineCol)
| ValueError (what : list ascii)
| StopIteration.

Inductive result (A : Type) : Type :=
| Ok (a : A)
| Raise (e : exn).
Arguments Ok {A} a.
Arguments Raise {A} e.

Inductive kind : Type :=
| UNOP | BIN_POWER | BIN_MULT | BIN_DIV | BIN_ADD | BIN_SUB
| KW_VAR | KW_FUN | KW_WHILE | KW_RETURN | KW_EXTERN
| IDENT | NUMBER | EQUALS
| LESSTHAN | LESSEQUAL | GREATERTHAN | GREATEREQUAL
| LEFT_PARENT | RIGHT_PARENT | LEFT_BRACE | RIGHT_BRACE | COMMA
| _IGNORE | _SOI | _EOI.

Scheme Equality for kind.

Definition kind_name (k : kind) : list ascii :=
  text match k with
       | UNOP => "UNOP" | BIN_POWER => "BIN_POWER" | BIN_MULT => "BIN_MULT"
       | BIN_DIV => "BIN_DIV" | BIN_ADD => "BIN_ADD" | BIN_SUB => "BIN_SUB"
       | KW_VAR => "KW_VAR" | KW_FUN => "KW_FUN" | KW_WHILE => "KW_WHILE"
       | KW_RETURN => "KW_RETURN" | KW_EXTERN => "KW_EXTERN"
       | IDENT => "IDENT" | NUMBER => "NUMBER" | EQUALS => "EQUALS"
       | LESSTHAN => "LESSTHAN" | LESSEQUAL => "LESSEQUAL"
       | GREATERTHAN => "GREATERTHAN" | GREATEREQUAL => "GREATEREQUAL"
       | LEFT_PARENT => "LEFT_PARENT" | RIGHT_PARENT => "RIGHT_PARENT"
       | LEFT_BRACE => "LEFT_BRACE" | RIGHT_BRACE => "RIGHT_BRACE"
       | COMMA => "COMMA"
       | _IGNORE => "_IGNORE" | _SOI => "_SOI" | _EOI => "_EOI"
       end.

Definition Token : Type := (kind * list ascii)%type.

(** [str(n)] for a non-negative integer. *)
Fixpoint str_digits (fuel n : nat) (acc : list ascii) : list ascii :=
  match fuel with
  | 0 => acc
  | S fuel' =>
      let acc' := ascii_of_nat (48 + n mod 10) :: acc in
      if n <? 10 then acc' else str_digits fuel' (n / 10) acc'
  end.

Definition str (n : nat) : list ascii := str_digits (S n) n [].

(** [ParseError.__init__]: the message handed to [Exception] is the three-line
    rendering, and the position is kept on the exception. *)
Definition render (message : list ascii) (src_line : list ascii)
           (position : LineCol) : list ascii :=
  let line_str := str (line position) in
  let caret := repeat space (col position + length line_str) ++ text "^" in
  message ++ [newline] ++ line_str ++ text "| " ++ src_line ++ [newline] ++ caret.

Definition mkParseError (message : list ascii) (src_line : list ascii)
           (position : LineCol) : exn :=
  ParseError (render message src_line position) position.

(** The three alternatives of the NUMBER pattern, in the order in which the
    pattern lists them. *)
Definition decimal_literal : regex :=
  Seq (Plus (Class digit)) (Opt (Seq (Chr ".") (Plus (Class digit)))).

Definition hex_literal : regex := Seq (Lit "0x") (Plus (Class hex_digit)).

Definition octal_literal : regex := Seq (Lit "0o") (Plus (Class oct_digit)).

Definition number_literal : regex :=
  Alt decimal_literal (Alt hex_literal octal_literal).

(** The rule table, in the insertion order of the [TOKENS] dict. *)
Definition TOKENS : list (kind * regex) :=
  [ (UNOP, Lit "not");
    (BIN_POWER, Lit "**");
    (BIN_MULT, Lit "*");
    (BIN_DIV, Lit "/");
    (BIN_ADD, Lit "+");
    (BIN_SUB, Lit "-");
    (KW_VAR, Lit "var");
    (KW_FUN, Lit "fun");
    (KW_WHILE, Lit "while");
    (KW_RETURN, Lit "return");
    (KW_EXTERN, Lit "extern");
    (IDENT, Seq (Class ident_start) (Star (Class ident_char)));
    (NUMBER, number_literal);
    (EQUALS, Lit "=");
    (LESSTHAN, Lit "<");
    (LESSEQUAL, Lit "<=");
    (GREATERTHAN, Lit ">");
    (GREATEREQUAL, Lit ">=");
    (LEFT_PARENT, Lit "(");
    (RIGHT_PARENT, Lit ")");
    (LEFT_BRACE, Lit "{");
    (RIGHT_BRACE, Lit "}");
    (COMMA, Lit ",");
    (_IGNORE, Plus (Class blank)) ].

Record Lexer : Type := mkLexer {
  code : list ascii;
  rest : list ascii;
  position : nat
}.

(** [Lexer.__init__] *)
Definition Lexer_init (src : list ascii) : Lexer :=
  {| code := src; rest := src; position := 0 |}.

(** [str.split("\n")] *)
Fixpoint split_lines (s : list ascii) : list (list ascii) :=
  match s with
  | [] => [[]]
  | c :: s' =>
      if Ascii.eqb c newline then [] :: split_lines s'
      else match split_lines s' with
           | l :: ls => (c :: l) :: ls
           | [] => [[c]]
           end
  end.

(** The [for i, line in enumerate(lines)] loop of [linecol_from_position];
    [None] when the loop runs to its end without returning.  [curpos <= pos]
    at every turn (it starts at 0 and grows only when
    [curpos + len(line) < pos]), so the subtraction on [nat] is exact. *)
Fixpoint linecol_loop (lines : list (list ascii)) (i curpos pos : nat)
  : option LineCol :=
  match lines with
  | [] => None
  | l :: lines' =>
      if pos <=? curpos + length l
      then Some {| line := i + 1; col := pos - curpos + 1 |}
      else linecol_loop lines' (S i) (curpos + length l) pos
  end.

Definition linecol_from_position (self : Lexer) (pos : nat) : LineCol :=
  let lines := split_lines (code self) in
  match linecol_loop lines 0 0 pos with
  | Some lc => lc
  | None => {| line := length lines; col := length (last lines []) |}
  end.

Definition linecol (self : Lexer) : LineCol :=
  linecol_from_position self (position self).

(** The [for i, line in enumerate(...)] loop of [get_line]. *)
Fixpoint get_line_loop (lines : list (list ascii)) (i lineno : nat)
  : option (list ascii) :=
  match lines with
  | [] => None
  | l :: lines' =>
      if i + 1 =? lineno then Some l else get_line_loop lines' (S i) lineno
  end.

Definition get_line (self : Lexer) (lineno : nat) : result (list ascii) :=
  match get_line_loop (split_lines (code self)) 0 lineno with
  | Some l => Ok l
  | None => Raise (ValueError (text "Bad line number: " ++ str lineno))
  end.

Definition cur_line (self : Lexer) : result (list ascii) :=
  get_line self (line (linecol self)).

(** Raising [ParseError(message, self.cur_line, self.linecol)]: the arguments
    are evaluated first, so a failing [cur_line] would surface instead. *)
Definition parse_error_here (self : Lexer) (message : list ascii) : exn :=
  match cur_line self with
  | Ok l => mkParseError message l (linecol self)
  | Raise e => e
  end.

(** The [for k, v in TOKENS.items()] loop of [__next__]: the first rule whose
    pattern matches the rest of the input, with the lexer advanced past the
    match. *)
Fixpoint scan_rules (rules : list (kind * regex)) (self : Lexer)
  : option (Token * Lexer) :=
  match rules with
  | [] => None
  | (k, v) :: rules' =>
      match re_match v (rest self) with
      | Some e =>
          let rest' := skipn e (rest self) in
          Some ((k, firstn e (rest self)),
                {| code := code self;
                   rest := rest';
                   position := length (code self) - length rest' |})
      | None => scan_rules rules' self
      end
  end.

(** What a call of [__next__] does: it returns a token, raises
    [StopIteration], or raises another exception; the lexer is mutated in the
    first two cases.  [Starved] is the fuel of the model running out. *)
Inductive next_result : Type :=
| Yield (t : Token) (self' : Lexer)
| Stop (self' : Lexer)
| Fail (e : exn)
| Starved.

(** The [while go_again] loop of [__next__] and what follows it.  Every turn
    that goes round again has consumed blanks, so the length of the rest of
    the input bounds the number of turns. *)
Fixpoint next_loop (fuel : nat) (self : Lexer) : next_result :=
  match scan_rules TOKENS self with
  | Some ((k, g), self') =>
      if kind_beq k _IGNORE then
        match fuel with
        | 0 => Starved
        | S fuel' => next_loop fuel' self'
        end
      else Yield (k, g) self'
  | None =>
      if length (rest self) =? 0 then Stop self
      else Fail (parse_error_here self (text "Cannot lex input code"))
  end.

(** [Lexer.__next__] *)
Definition Lexer_next (self : Lexer) : next_result :=
  if length (rest self) =? 0 then Stop self
  else next_loop (length (rest self)) self.

(** [list(lexer)]: the tokens an iteration over the lexer yields, and how the
    iteration ends. *)
Inductive stream_end : Type :=
| Exhausted
| Failed (e : exn)
| Unfinished.

Fixpoint tokens_from (fuel : nat) (self : Lexer) : list Token * stream_end :=
  match fuel with
  | 0 => ([], Unfinished)
  | S fuel' =>
      match Lexer_next self with
      | Yield t self' =>
          let (ts, e) := tokens_from fuel' self' in (t :: ts, e)
      | Stop _ => ([], Exhausted)
      | Fail e => ([], Failed e)
      | Starved => ([], Unfinished)
      end
  end.

Definition tokenize (src : list ascii) : list Token * stream_end :=
  tokens_from (S (length src)) (Lexer_init src).

(** ** nodes.py *)

Inductive BinaryOperation : Type := ADD | SUB | MULT | DIV | POWER | AND | OR.

Inductive UnaryOperation : Type := PRINT | NOT.

(** [UnaryOperation(value)]: the member whose value is [value]. *)
Definition UnaryOperation_of (value : list ascii) : result UnaryOperation :=
  if list_eq_dec ascii_dec value (text "print") then Ok PRINT
  else if list_eq_dec ascii_dec value (text "not") then Ok NOT
  else Raise (ValueError (value ++ text " is not a valid UnaryOperation")).

Record Span : Type := mkSpan { start : LineCol; end_ : LineCol }.

(** The node classes.  Every node carries its span first, then the fields of
    its class in the order of the constructor's parameters. *)
#[warnings="-register-all"]
Inductive node : Type :=
| DeclarationNode (span : Span) (ident : list ascii)
| AssignmentNode (span : Span) (ident : list ascii) (expr : node)
| ValueNode (span : Span) (value : Q)
| BinaryOperationNode (span : Span) (left : node) (op : BinaryOperation) (right : node)
| UnaryOperationNode (span : Span) (op : UnaryOperation) (operand : node)
| ReturnStatementNode (span : Span) (expr : node)
| CodeBlockNode (span : Span) (block : list node)
| WhileNode (span : Span) (condition : node) (block : node)
| IdentNode (span : Span) (ident : list ascii)
| FunctionNode (span : Span) (name : list ascii) (args : list node) (block : node)
| ExternFunctionNode (span : Span) (name : list ascii) (args : list node)
| FunctionCallNode (span : Span) (ident : list ascii) (args : list node).

Definition span_of (n : node) : Span :=
  match n with
  | DeclarationNode sp _ | AssignmentNode sp _ _ | ValueNode sp _
  | BinaryOperationNode sp _ _ _ | UnaryOperationNode sp _ _
  | ReturnStatementNode sp _ | CodeBlockNode sp _ | WhileNode sp _ _
  | IdentNode sp _ | FunctionNode sp _ _ _ | ExternFunctionNode sp _ _
  | FunctionCallNode sp _ _ => sp
  end.

(** [float(value)] on the literals the NUMBER rule can produce, [digits] and
    [digits.digits].  The model keeps the exact decimal value, which [float]
    rounds to the nearest binary64; other shapes that [float] would accept
    (signs, exponents, ...) never reach [ValueNode] and are rejected here
    (see [number_lexeme_converts]). *)
Definition digits_value (ds : list ascii) : Z :=
  fold_left (fun acc c => (10 * acc + Z.of_nat (nat_of_ascii c - 48))%Z) ds 0%Z.

Fixpoint split_at_dot (s : list ascii) : list ascii * option (list ascii) :=
  match s with
  | [] => ([], None)
  | c :: s' =>
      if Ascii.eqb c "." then ([], Some s')
      else let (ip, fp) := split_at_dot s' in (c :: ip, fp)
  end.

Definition all_digits (s : list ascii) : bool :=
  negb (length s =? 0) && forallb digit s.

Definition float_of (value : list ascii) : result Q :=
  let bad := Raise (ValueError (text "could not convert string to float: " ++ value)) in
  match split_at_dot value with
  | (ip, None) =>
      if all_digits ip then Ok (inject_Z (digits_value ip)) else bad
  | (ip, Some fp) =>
      if all_digits ip && all_digits fp
      then Ok (Qred (digits_value (ip ++ fp) # Pos.of_nat (10 ^ length fp)))
      else bad
  end.

(** The traversal hook.  The visitor is a callback run for its effect; here
    it is a transformer of the state [St] it acts on.  Classes without a
    [visit] of their own inherit [BaseNode.visit]. *)
Section Visit.

Context {St : Type}.
Variable visitor : node -> St -> St.

Definition visit_each (ns : list node) (s : St) : St :=
  fold_left (fun s n => visitor n s) ns s.

Definition visit (self : node) (s : St) : St :=
  match self with
  | BinaryOperationNode _ l _ r =>
      let s := visitor l s in
      let s := visitor r s in
      visitor self s
  | UnaryOperationNode _ _ operand =>
      let s := visitor operand s in
      visitor self s
  | ReturnStatementNode _ e =>
      let s := visitor e s in
      visitor self s
  | CodeBlockNode _ b =>
      let s := visit_each b s in
      visitor self s
  | WhileNode _ c b =>
      let s := visitor c s in
      let s := visitor b s in
      visitor self s
  | FunctionNode _ _ a b =>
      let s := visit_each a s in
      let s := visitor b s in
      visitor self s
  | ExternFunctionNode _ _ a =>
      let s := visit_each a s in
      visitor self s
  | FunctionCallNode _ _ a =>
      let s := visit_each a s in
      visitor self s
  | DeclarationNode _ _ | AssignmentNode _ _ _ | ValueNode _ _
  | IdentNode _ _ =>
      visitor self s
  end.

End Visit.

(** A recording callback: it appends the node it is called on to a log. *)
Definition record (n : node) (log : list node) : list node := log ++ [n].

(** The child nodes a node holds, in the order of its fields. *)
Definition children (n : node) : list node :=
  match n with
  | DeclarationNode _ _ | ValueNode _ _ | IdentNode _ _ => []
  | AssignmentNode _ _ e => [e]
  | BinaryOperationNode _ l _ r => [l; r]
  | UnaryOperationNode _ _ e => [e]
  | ReturnStatementNode _ e => [e]
  | CodeBlockNode _ b => b
  | WhileNode _ c b => [c; b]
  | FunctionNode _ _ a b => a ++ [b]
  | ExternFunctionNode _ _ a => a
  | FunctionCallNode _ _ a => a
  end.

(** Every node of a tree in post-order: the nodes of each child subtree, child
    by child, then the node itself. *)
Fixpoint postorder (n : node) : list node :=
  match n with
  | DeclarationNode _ _ | ValueNode _ _ | IdentNode _ _ => [n]
  | AssignmentNode _ _ e => postorder e ++ [n]
  | BinaryOperationNode _ l _ r => postorder l ++ postorder r ++ [n]
  | UnaryOperationNode _ _ e => postorder e ++ [n]
  | ReturnStatementNode _ e => postorder e ++ [n]
  | CodeBlockNode _ b => flat_map postorder b ++ [n]
  | WhileNode _ c b => postorder c ++ postorder b ++ [n]
  | FunctionNode _ _ a b => flat_map postorder a ++ postorder b ++ [n]
  | ExternFunctionNode _ _ a => flat_map postorder a ++ [n]
  | FunctionCallNode _ _ a => flat_map postorder a ++ [n]
  end.

(** [display(n)]: the tree as indented text, two spaces for each level.
    [float_str] stands for [str] on a float, [str(op)] on a member of an
    [Enum] is the class name, a dot and the member's name. *)
Definition indent (n : nat) : list ascii := concat (repeat (text "  ") n).

Definition BinaryOperation_str (op : BinaryOperation) : list ascii :=
  text "BinaryOperation." ++
  match op with
  | ADD => text "ADD"
  | SUB => text "SUB"
  | MULT => text "MULT"
  | DIV => text "DIV"
  | POWER => text "POWER"
  | AND => text "AND"
  | OR => text "OR"
  end.

Definition UnaryOperation_str (op : UnaryOperation) : list ascii :=
  text "UnaryOperation." ++
  match op with PRINT => text "PRINT" | NOT => text "NOT" end.

Section Display.
Variable float_str : Q -> list ascii.

Fixpoint display (self : node) (n : nat) : list ascii :=
  match self with
  | DeclarationNode _ ident =>
      indent n ++ text "var " ++ ident ++ [newline]
  | AssignmentNode _ ident expr =>
      indent n ++ text "var " ++ ident ++ text " =" ++ [newline]
      ++ display expr (n + 1)
  | ValueNode _ value =>
      indent n ++ float_str value ++ [newline]
  | BinaryOperationNode _ l op r =>
      indent n ++ BinaryOperation_str op ++ [newline]
      ++ display l (n + 1) ++ display r (n + 1)
  | UnaryOperationNode _ op operand =>
      indent n ++ UnaryOperation_str op ++ [newline]
      ++ display operand (n + 1)
  | ReturnStatementNode _ expr =>
      indent n ++ text "return" ++ [newline] ++ display expr (n + 1)
  | CodeBlockNode _ block =>
      let s := concat (map (fun node => display node (n + 1)) block) in
      indent n ++ text "block" ++ [newline] ++ s
  | WhileNode _ condition block =>
      indent n ++ text "while" ++ [newline]
      ++ display condition (n + 1) ++ display block (n + 1)
  | IdentNode _ ident =>
      indent n ++ ident ++ [newline]
  | FunctionNode _ name args block =>
      indent n ++ text "function " ++ name ++ text "(nargs="
      ++ str (length args) ++ text ")" ++ [newline] ++ display block (n + 1)
  | ExternFunctionNode _ name args =>
      indent n ++ text "extern function " ++ name ++ text "(nargs="
      ++ str (length args) ++ text ")" ++ [newline]
  | FunctionCallNode _ ident args =>
      let s := concat (map (fun node => display node (n + 1)) args) in
      indent n ++ text "call " ++ ident ++ [newline] ++ s
  end.

(** [__str__] *)
Definition node_str (self : node) : list ascii := display self 0.

End Display.

(** ** parser.py *)

Record Parser : Type := mkParser { lexer : Lexer; token : Token }.

(** A method of [Parser]: it returns a value and leaves the parser in a new
    state, or raises.  [NoFuel] is the fuel of the model running out. *)
Inductive outcome (A : Type) : Type :=
| Done (a : A) (self' : Parser)
| Throw (e : exn)
| NoFuel.
Arguments Done {A} a self'.
Arguments Throw {A} e.
Arguments NoFuel {A}.

Definition M (A : Type) : Type := Parser -> outcome A.

Definition ret {A} (a : A) : M A := fun self => Done a self.

Definition bind {A B} (c : M A) (k : A -> M B) : M B :=
  fun self =>
    match c self with
    | Done a self' => k a self'
    | Throw e => Throw e
    | NoFuel => NoFuel
    end.

Definition starve {A} : M A := fun _ => NoFuel.

Definition lift {A} (r : result A) : M A :=
  fun self => match r with Ok a => Done a self | Raise e => Throw e end.

Notation "x <- c ;; k" := (bind c (fun x => k))
  (at level 61, c at next level, right associativity).
Notation "c ;;; k" := (bind c (fun _ => k))
  (at level 61, right associativity).

(** [Parser.__init__] on a source text: it leaves a parser, or raises (with
    [incomplete] the first token is read at once, and [StopIteration]
    escapes when there is none). *)
Definition Parser_init (src : list ascii) (incomplete : bool) : outcome unit :=
  let lx := Lexer_init src in
  if incomplete then
    match Lexer_next lx with
    | Yield t lx' => Done tt {| lexer := lx'; token := t |}
    | Stop _ => Throw StopIteration
    | Fail e => Throw e
    | Starved => NoFuel
    end
  else Done tt {| lexer := lx; token := (_SOI, []) |}.

(** The [position] property. *)
Definition get_position : M LineCol := fun self => Done (linecol (lexer self)) self.

(** Raising [ParseError(message, self.lexer.cur_line, self.position)]. *)
Definition syntax_error {A} (message : list ascii) : M A :=
  fun self => Throw (parse_error_here (lexer self) message).

(** Raising [ParseError(message, self.lexer.get_line(pos.line), pos)]. *)
Definition syntax_error_at {A} (message : list ascii) (pos : LineCol) : M A :=
  fun self =>
    match get_line (lexer self) (line pos) with
    | Ok l => Throw (mkParseError message l pos)
    | Raise e => Throw e
    end.

Definition peek : M kind := fun self => Done (fst (token self)) self.

Definition eat (tok : kind) : M (list ascii) :=
  fun self =>
    let cur_token := fst (token self) in
    if kind_beq cur_token tok then
      let value := snd (token self) in
      match Lexer_next (lexer self) with
      | Yield t lx => Done value {| lexer := lx; token := t |}
      | Stop lx => Done value {| lexer := lx; token := (_EOI, []) |}
      | Fail e => Throw e
      | Starved => NoFuel
      end
    else if kind_beq cur_token _EOI then
      syntax_error (text "Unexpected end of file, expecting " ++ kind_name tok) self
    else
      syntax_error (text "Unexpected token " ++ kind_name cur_token
                         ++ text ", expecting " ++ kind_name tok) self.

Definition is_next (tok : kind) : M bool :=
  cur <- peek ;; ret (kind_beq cur tok).

Definition accept (tok : kind) : M bool :=
  b <- is_next tok ;;
  if b then eat tok ;;; ret true else ret false.

Definition is_ident (n : node) : option (list ascii) :=
  match n with IdentNode _ ident => Some ident | _ => None end.

(** The recursive descent.  Each call spends one unit of fuel, and so does
    each turn of a loop. *)
#[warnings="-non-full-mutual"]
Fixpoint parse_function (n : nat) : M node :=
  match n with
  | 0 => starve
  | S n' =>
      start <- get_position ;;
      is_extern <- accept KW_EXTERN ;;
      is_fun <- accept KW_FUN ;;
      if is_fun then
        name <- eat IDENT ;;
        eat LEFT_PARENT ;;;
        args <- parse_comma_list n' RIGHT_PARENT ;;
        eat RIGHT_PARENT ;;;
        if negb is_extern then
          code <- parse_codeblock n' true ;;
          stop <- get_position ;;
          ret (FunctionNode (mkSpan start stop) name args code)
        else
          stop <- get_position ;;
          ret (ExternFunctionNode (mkSpan start stop) name args)
      else parse_codeblock n' false
  end

with parse_codeblock (n : nat) (force : bool) : M node :=
  match n with
  | 0 => starve
  | S n' =>
      start <- get_position ;;
      braced <- accept LEFT_BRACE ;;
      block <- (if braced then
                  block <- gen_statements n' ;;
                  eat RIGHT_BRACE ;;;
                  ret block
                else if force then
                  syntax_error (text "Code block need braces")
                else
                  d <- parse_declaration n' ;;
                  ret [d]) ;;
      stop <- get_position ;;
      ret (CodeBlockNode (mkSpan start stop) block)
  end

(** [list(gen())] in [parse_codeblock] *)
with gen_statements (n : nat) : M (list node) :=
  match n with
  | 0 => starve
  | S n' =>
      closing <- is_next RIGHT_BRACE ;;
      if closing then ret []
      else
        s <- parse_statement n' ;;
        ss <- gen_statements n' ;;
        ret (s :: ss)
  end

with parse_statement (n : nat) : M node :=
  match n with
  | 0 => starve
  | S n' =>
      start <- get_position ;;
      is_return <- accept KW_RETURN ;;
      if is_return then
        expr <- parse_expression n' ;;
        stop <- get_position ;;
        ret (ReturnStatementNode (mkSpan start stop) expr)
      else
        is_while <- accept KW_WHILE ;;
        if is_while then
          cond <- parse_expression n' ;;
          block <- parse_codeblock n' false ;;
          stop <- get_position ;;
          ret (WhileNode (mkSpan start stop) cond block)
        else parse_declaration n'
  end

with parse_declaration (n : nat) : M node :=
  match n with
  | 0 => starve
  | S n' =>
      start <- get_position ;;
      is_var <- accept KW_VAR ;;
      if is_var then
        ident <- eat IDENT ;;
        stop <- get_position ;;
        ret (DeclarationNode (mkSpan start stop) ident)
      else parse_assignment n'
  end

with parse_assignment (n : nat) : M node :=
  match n with
  | 0 => starve
  | S n' =>
      start <- get_position ;;
      left <- parse_expression n' ;;
      is_assign <- accept EQUALS ;;
      if is_assign then
        match is_ident left with
        | None => syntax_error (text "Syntax error")
        | Some ident =>
            expr <- parse_expression n' ;;
            stop <- get_position ;;
            ret (AssignmentNode (mkSpan start stop) ident expr)
        end
      else ret left
  end

with parse_expression (n : nat) : M node :=
  match n with
  | 0 => starve
  | S n' =>
      opened <- accept LEFT_PARENT ;;
      if opened then
        e <- parse_expression n' ;;
        eat RIGHT_PARENT ;;;
        ret e
      else parse_expr_add n'
  end

with parse_expr_add (n : nat) : M node :=
  match n with
  | 0 => starve
  | S n' =>
      start <- get_position ;;
      left <- parse_expr_sub n' ;;
      found <- accept BIN_ADD ;;
      if found then
        right <- parse_expr_add n' ;;
        stop <- get_position ;;
        ret (BinaryOperationNode (mkSpan start stop) left ADD right)
      else ret left
  end

with parse_expr_sub (n : nat) : M node :=
  match n with
  | 0 => starve
  | S n' =>
      start <- get_position ;;
      left <- parse_expr_mult n' ;;
      found <- accept BIN_SUB ;;
      if found then
        right <- parse_expr_add n' ;;
        stop <- get_position ;;
        ret (BinaryOperationNode (mkSpan start stop) left SUB right)
      else ret left
  end

with parse_expr_mult (n : nat) : M node :=
  match n with
  | 0 => starve
  | S n' =>
      start <- get_position ;;
      left <- parse_expr_div n' ;;
      found <- accept BIN_MULT ;;
      if found then
        right <- parse_expr_mult n' ;;
        stop <- get_position ;;
        ret (BinaryOperationNode (mkSpan start stop) left MULT right)
      else ret left
  end

with parse_expr_div (n : nat) : M node :=
  match n with
  | 0 => starve
  | S n' =>
      start <- get_position ;;
      left <- parse_expr_power n' ;;
      found <- accept BIN_DIV ;;
      if found then
        right <- parse_expr_mult n' ;;
        stop <- get_position ;;
        ret (BinaryOperationNode (mkSpan start stop) left DIV right)
      else ret left
  end

with parse_expr_power (n : nat) : M node :=
  match n with
  | 0 => starve
  | S n' =>
      start <- get_position ;;
      left <- parse_function_call n' ;;
      found <- accept BIN_POWER ;;
      if found then
        right <- parse_expr_power n' ;;
        stop <- get_position ;;
        ret (BinaryOperationNode (mkSpan start stop) left POWER right)
      else ret left
  end

with parse_function_call (n : nat) : M node :=
  match n with
  | 0 => starve
  | S n' =>
      start <- get_position ;;
      left <- parse_expr_unary n' ;;
      opened <- accept LEFT_PARENT ;;
      if opened then
        match is_ident left with
        | None => syntax_error (text "Syntax error")
        | Some ident =>
            args <- parse_comma_list n' RIGHT_PARENT ;;
            eat RIGHT_PARENT ;;;
            stop <- get_position ;;
            ret (FunctionCallNode (mkSpan start stop) ident args)
        end
      else ret left
  end

with parse_expr_unary (n : nat) : M node :=
  match n with
  | 0 => starve
  | S n' =>
      start <- get_position ;;
      is_unop <- is_next UNOP ;;
      if is_unop then
        op <- eat UNOP ;;
        operand <- parse_function_call n' ;;
        stop <- get_position ;;
        uop <- lift (UnaryOperation_of op) ;;
        ret (UnaryOperationNode (mkSpan start stop) uop operand)
      else parse_parent_expr n'
  end

with parse_parent_expr (n : nat) : M node :=
  match n with
  | 0 => starve
  | S n' =>
      opened <- accept LEFT_PARENT ;;
      if opened then
        e <- parse_expression n' ;;
        eat RIGHT_PARENT ;;;
        ret e
      else parse_value n'
  end

with parse_value (n : nat) : M node :=
  match n with
  | 0 => starve
  | S n' =>
      start <- get_position ;;
      is_number <- is_next NUMBER ;;
      if is_number then
        value <- eat NUMBER ;;
        stop <- get_position ;;
        v <- lift (float_of value) ;;
        ret (ValueNode (mkSpan start stop) v)
      else
        is_name <- is_next IDENT ;;
        if is_name then
          ident <- eat IDENT ;;
          stop <- get_position ;;
          ret (IdentNode (mkSpan start stop) ident)
        else
          syntax_error_at (text "Syntax error") start
  end

with parse_comma_list (n : nat) (close_token : kind) : M (list node) :=
  match n with
  | 0 => starve
  | S n' =>
      closing <- is_next close_token ;;
      if closing then ret []
      else
        e <- parse_expression n' ;;
        comma_loop n' [e]
  end

(** The [while self.accept("COMMA")] loop of [parse_comma_list] *)
with comma_loop (n : nat) (args : list node) : M (list node) :=
  match n with
  | 0 => starve
  | S n' =>
      more <- accept COMMA ;;
      if more then
        e <- parse_expression n' ;;
        comma_loop n' (args ++ [e])
      else ret args
  end.

(** [list(gen())] in [parse] *)
Fixpoint gen_functions (n : nat) : M (list node) :=
  match n with
  | 0 => starve
  | S n' =>
      at_end <- is_next _EOI ;;
      if at_end then ret []
      else
        f <- parse_function n' ;;
        fs <- gen_functions n' ;;
        ret (f :: fs)
  end.

Definition parse (n : nat) : M node :=
  start <- get_position ;;
  eat _SOI ;;;
  block <- gen_functions n ;;
  eat _EOI ;;;
  stop <- get_position ;;
  ret (CodeBlockNode (mkSpan start stop) block).

(** [Parser(src).parse()], keeping only what the caller sees: the tree or the
    exception. *)
Inductive parsed : Type :=
| Tree (root : node)
| Error (e : exn)
| Incomplete.

(** A method called on a freshly constructed parser. *)
Definition run {A} (c : M A) (p : outcome unit) : outcome A :=
  match p with
  | Done _ self => c self
  | Throw e => Throw e
  | NoFuel => NoFuel
  end.

Definition parse_text (n : nat) (src : list ascii) : parsed :=
  match run (parse n) (Parser_init src false) with
  | Done root _ => Tree root
  | Throw e => Error e
  | NoFuel => Incomplete
  end.

Definition at_pos (l c : nat) : LineCol := {| line := l; col := c |}.
Definition spanning (l1 c1 l2 c2 : nat) : Span :=
  {| start := at_pos l1 c1; end_ := at_pos l2 c2 |}.

(** ** Notions the properties below are stated with *)

(** The words the lexer treats as reserved, with the kind of the rule that
    holds each of them. *)
Definition keywords : list (kind * string) :=
  [ (KW_VAR, "var"%string); (KW_FUN, "fun"%string); (KW_WHILE, "while"%string);
    (KW_RETURN, "return"%string); (KW_EXTERN, "extern"%string);
    (UNOP, "not"%string) ].

(** A pattern that cannot match the empty string. *)
Fixpoint nonempty (r : regex) : bool :=
  match r with
  | Eps | Opt _ | Star _ => false
  | Chr _ | Class _ => true
  | Seq r1 r2 => nonempty r1 || nonempty r2
  | Alt r1 r2 => nonempty r1 && nonempty r2
  | Plus r1 => nonempty r1
  end.

(** The number of decimal digits of [n]. *)
Fixpoint digit_count_fuel (fuel n : nat) : nat :=
  match fuel with
  | 0 => 0
  | S fuel' => if n <? 10 then 1 else S (digit_count_fuel fuel' (n / 10))
  end.

Definition digit_count (n : nat) : nat := digit_count_fuel (S n) n.

(** The 1-based line and column of the character at offset [p] of a text:
    walking the text from its start, a newline begins a new line at
    column 1 and any other character advances the column. *)
Fixpoint walk (s : list ascii) (p l c : nat) : LineCol :=
  match p, s with
  | S p', ch :: s' =>
      if Ascii.eqb ch newline then walk s' p' (S l) 1 else walk s' p' l (S c)
  | _, _ => {| line := l; col := c |}
  end.

Definition char_linecol (src : list ascii) (p : nat) : LineCol := walk src p 1 1.

(** Lexicographic order on positions. *)
Definition pos_leb (a b : LineCol) : bool :=
  (line a <? line b) || ((line a =? line b) && (col a <=? col b)).

Definition span_ordered (sp : Span) : bool := pos_leb (start sp) (end_ sp).

Definition span_within (inner outer : Span) : bool :=
  pos_leb (start outer) (start inner) && pos_leb (end_ inner) (end_ outer).

(** Every node of the tree has an ordered span that lies within the span of
    its parent. *)
Fixpoint well_spanned (n : node) : bool :=
  span_ordered (span_of n)
  && forallb (fun c => span_within (span_of c) (span_of n)) (children n)
  && match n with
     | DeclarationNode _ _ | ValueNode _ _ | IdentNode _ _ => true
     | AssignmentNode _ _ e | UnaryOperationNode _ _ e
     | ReturnStatementNode _ e => well_spanned e
     | BinaryOperationNode _ l _ r => well_spanned l && well_spanned r
     | WhileNode _ c b => well_spanned c && well_spanned b
     | CodeBlockNode _ b => forallb well_spanned b
     | FunctionNode _ _ a b => forallb well_spanned a && well_spanned b
     | ExternFunctionNode _ _ a | FunctionCallNode _ _ a => forallb well_spanned a
     end.

(** Nodes whose class inherits [BaseNode.visit] although it holds a child. *)
Definition is_assignment (n : node) : bool :=
  match n with AssignmentNode _ _ _ => true | _ => false end.

(** One outcome refines another when it is the same, or the fuel ran out. *)
Definition refines {A} (o1 o2 : outcome A) : Prop := o1 = NoFuel \/ o1 = o2.

(** Two steps of the lexer that return the same token and leave the same
    rest of the input. *)
Definition same_step (r1 r2 : next_result) : Prop :=
  match r1, r2 with
  | Yield t1 s1, Yield t2 s2 => t1 = t2 /\ rest s1 = rest s2
  | Stop s1, Stop s2 => rest s1 = rest s2
  | Fail _, Fail _ => True
  | Starved, Starved => True
  | _, _ => False
  end.

(** The same for parser methods, from every state. *)
Definition mrefines {A} (c1 c2 : M A) : Prop :=
  forall self, refines (c1 self) (c2 self).

(** Every function of the descent gives with fuel [m] what it gives with
    fuel [n], when it gives something. *)
Definition descent_mono (n m : nat) : Prop :=
  mrefines (parse_function n) (parse_function m)
  /\ (forall force, mrefines (parse_codeblock n force) (parse_codeblock m force))
  /\ mrefines (gen_statements n) (gen_statements m)
  /\ mrefines (parse_statement n) (parse_statement m)
  /\ mrefines (parse_declaration n) (parse_declaration m)
  /\ mrefines (parse_assignment n) (parse_assignment m)
  /\ mrefines (parse_expression n) (parse_expression m)
  /\ mrefines (parse_expr_add n) (parse_expr_add m)
  /\ mrefines (parse_expr_sub n) (parse_expr_sub m)
  /\ mrefines (parse_expr_mult n) (parse_expr_mult m)
  /\ mrefines (parse_expr_div n) (parse_expr_div m)
  /\ mrefines (parse_expr_power n) (parse_expr_power m)
  /\ mrefines (parse_function_call n) (parse_function_call m)
  /\ mrefines (parse_expr_unary n) (parse_expr_unary m)
  /\ mrefines (parse_parent_expr n) (parse_parent_expr m)
  /\ mrefines (parse_value n) (parse_value m)
  /\ (forall close, mrefines (parse_comma_list n close) (parse_comma_list m close))
  /\ (forall args, mrefines (comma_loop n args) (comma_loop m args)).

(** A text without newline. *)
Definition one_line (s : list ascii) : bool :=
  forallb (fun c => negb (Ascii.eqb c newline)) s.



(** The span discipline of the parser on a text of one line, told in
    offsets: the span of the node runs from the column of offset [s] to the
    column of offset [e] on line 1, with [lo <= s <= e <= hi], and the
    children of the node are inside [s] and [e] in the same way. *)
#[warnings="-register-all"]
Inductive inside : nat -> nat -> node -> Prop :=
| inside_node (lo hi s e : nat) (n : node) :
    span_of n = spanning 1 (s + 1) 1 (e + 1) ->
    lo <= s -> s <= e -> e <= hi ->
    Forall (inside s e) (children n) ->
    inside lo hi n.

(** The lexer works on [src] and its position is the consumption offset. *)
Definition lexer_inv (src : list ascii) (lx : Lexer) : Prop :=
  code lx = src /\ position lx = length src - length (rest lx).

Definition off (self : Parser) : nat := position (lexer self).

(** A parser method that keeps the lexer's invariant, never moves the
    position backwards, and returns a value that [Q] relates to the offsets
    before and after. *)
Definition advances (src : list ascii) {A} (c : M A)
           (Q : nat -> nat -> A -> Prop) : Prop :=
  forall self a self',
    lexer_inv src (lexer self) -> c self = Done a self' ->
    lexer_inv src (lexer self') /\ off self <= off self'
    /\ Q (off self) (off self') a.

Definition all_inside (lo hi : nat) (l : list node) : Prop :=
  Forall (inside lo hi) l.

(** [comma_loop] appends to arguments that are inside already. *)
Definition comma_loop_spans (src : list ascii) (n : nat) : Prop :=
  forall args lo0 self a self',
    lexer_inv src (lexer self) -> lo0 <= off self ->
    Forall (inside lo0 (off self)) args ->
    comma_loop n args self = Done a self' ->
    lexer_inv src (lexer self') /\ off self <= off self'
    /\ Forall (inside lo0 (off self')) a.

(** Every function of the descent follows the span discipline. *)
Definition descent_spans (src : list ascii) (n : nat) : Prop :=
  advances src (parse_function n) inside
  /\ (forall force, advances src (parse_codeblock n force) inside)
  /\ advances src (gen_statements n) all_inside
  /\ advances src (parse_statement n) inside
  /\ advances src (parse_declaration n) inside
  /\ advances src (parse_assignment n) inside
  /\ advances src (parse_expression n) inside
  /\ advances src (parse_expr_add n) inside
  /\ advances src (parse_expr_sub n) inside
  /\ advances src (parse_expr_mult n) inside
  /\ advances src (parse_expr_div n) inside
  /\ advances src (parse_expr_power n) inside
  /\ advances src (parse_function_call n) inside
  /\ advances src (parse_expr_unary n) inside
  /\ advances src (parse_parent_expr n) inside
  /\ advances src (parse_value n) inside
  /\ (forall close, advances src (parse_comma_list n close) all_inside)
  /\ comma_loop_spans src n.

(** Every 8-bit character. *)
Definition all_ascii : list ascii := map ascii_of_nat (seq 0 256).

(** [class_within p q]: the class [p] holds only characters of [q]. *)
Definition class_within (p q : ascii -> bool) : bool :=
  forallb (fun c => implb (p c) (q c)) all_ascii.

(** Every character of every match of [r] satisfies [q]. *)
Fixpoint chars_in (q : ascii -> bool) (r : regex) : bool :=
  match r with
  | Eps => true
  | Chr c => q c
  | Class p => class_within p q
  | Seq r1 r2 | Alt r1 r2 => chars_in q r1 && chars_in q r2
  | Opt r1 | Star r1 | Plus r1 => chars_in q r1
  end.

(** Every match of [r] starts with a character that satisfies [q]. *)
Fixpoint first_in (q : ascii -> bool) (r : regex) : bool :=
  match r with
  | Eps | Opt _ | Star _ => false
  | Chr c => q c
  | Class p => class_within p q
  | Seq r1 _ | Plus r1 => first_in q r1
  | Alt r1 r2 => first_in q r1 && first_in q r2
  end.

(** The characters that are not skipped. *)
Definition solid (c : ascii) : bool := negb (blank c).

(** The characters of the one- and two-character rules. *)
Definition operator_char (c : ascii) : bool :=
  existsb (Ascii.eqb c) (text "*/+-=<>(){},").

(** The characters with which some token can start. *)
Definition starts_token (c : ascii) : bool :=
  ident_start c || digit c || operator_char c.

(** What the rule of kind [k] may consume: blanks for the rule of blanks,
    anything but blanks for every other rule. *)
Definition rule_alphabet (k : kind) : ascii -> bool :=
  if kind_beq k _IGNORE then blank else solid.

(** With what a match of the rule of kind [k] may start. *)
Definition rule_start (k : kind) : ascii -> bool :=
  if kind_beq k _IGNORE then blank else starts_token.

(** What the grammar lets the parser build.  An expression is an identifier,
    a literal, a negation, a call, or one of the five binary operations the
    ladder knows. *)
Definition parsed_binop (op : BinaryOperation) : bool :=
  match op with
  | ADD | SUB | MULT | DIV | POWER => true
  | AND | OR => false
  end.

Fixpoint is_expression (n : node) : bool :=
  match n with
  | IdentNode _ _ | ValueNode _ _ => true
  | UnaryOperationNode _ NOT e => is_expression e
  | BinaryOperationNode _ l op r =>
      parsed_binop op && is_expression l && is_expression r
  | FunctionCallNode _ _ a => forallb is_expression a
  | _ => false
  end.

(** A statement is a return, a loop over a block, a declaration, an
    assignment or a bare expression; a block is a [CodeBlockNode] of
    statements. *)
Fixpoint is_statement (n : node) : bool :=
  match n with
  | ReturnStatementNode _ e => is_expression e
  | WhileNode _ c b => is_expression c && is_block b
  | DeclarationNode _ _ => true
  | AssignmentNode _ _ e => is_expression e
  | _ => is_expression n
  end

with is_block (n : node) : bool :=
  match n with
  | CodeBlockNode _ b => forallb is_statement b
  | _ => false
  end.

(** An entry of a program is a function with a block for body, an external
    function, or a block. *)
Definition is_toplevel (n : node) : bool :=
  match n with
  | FunctionNode _ _ a b => forallb is_expression a && is_block b
  | ExternFunctionNode _ _ a => forallb is_expression a
  | _ => is_block n
  end.

Definition is_program (n : node) : bool :=
  match n with
  | CodeBlockNode _ fs => forallb is_toplevel fs
  | _ => false
  end.

Definition is_parse_error (e : exn) : Prop :=
  match e with ParseError _ _ => True | _ => False end.

(** The lookahead token is one the lexer has produced: a NUMBER lexeme
    converts, the UNOP lexeme is [not], and the end-of-input token stands
    only when nothing is left of the input. *)
Definition token_ok (self : Parser) : Prop :=
  match fst (token self) with
  | NUMBER => exists q, float_of (snd (token self)) = Ok q
  | UNOP => snd (token self) = text "not"
  | _EOI => token self = (_EOI, []) /\ rest (lexer self) = []
  | _ => True
  end.

Definition parser_inv (src : list ascii) (self : Parser) : Prop :=
  code (lexer self) = src /\ token_ok self.

(** A parser method called in state [self] keeps the invariant and returns
    a value and a state that [Q] accepts, or raises a [ParseError]. *)
Definition sound_at (src : list ascii) {A} (c : M A)
           (Q : A -> Parser -> Prop) (self : Parser) : Prop :=
  match c self with
  | Done a self' => parser_inv src self' /\ Q a self'
  | Throw e => is_parse_error e
  | NoFuel => True
  end.

(** What [eat] tells about the lexeme it returns and the state it leaves. *)
Definition eat_post (tok : kind) (v : list ascii) (self' : Parser) : Prop :=
  match tok with
  | NUMBER => exists q, float_of v = Ok q
  | UNOP => v = text "not"
  | _EOI => token self' = (_EOI, []) /\ rest (lexer self') = []
  | _ => True
  end.

Definition all_expressions (l : list node) : Prop :=
  forallb is_expression l = true.

Definition descent_sound (src : list ascii) (n : nat) : Prop :=
  (forall self, parser_inv src self ->
     sound_at src (parse_function n) (fun a _ => is_toplevel a = true) self)
  /\ (forall force self, parser_inv src self ->
        sound_at src (parse_codeblock n force) (fun a _ => is_block a = true) self)
  /\ (forall self, parser_inv src self ->
        sound_at src (gen_statements n)
                 (fun l _ => forallb is_statement l = true) self)
  /\ (forall self, parser_inv src self ->
        sound_at src (parse_statement n) (fun a _ => is_statement a = true) self)
  /\ (forall self, parser_inv src self ->
        sound_at src (parse_declaration n) (fun a _ => is_statement a = true) self)
  /\ (forall self, parser_inv src self ->
        sound_at src (parse_assignment n) (fun a _ => is_statement a = true) self)
  /\ (forall self, parser_inv src self ->
        sound_at src (parse_expression n) (fun a _ => is_expression a = true) self)
  /\ (forall self, parser_inv src self ->
        sound_at src (parse_expr_add n) (fun a _ => is_expression a = true) self)
  /\ (forall self, parser_inv src self ->
        sound_at src (parse_expr_sub n) (fun a _ => is_expression a = true) self)
  /\ (forall self, parser_inv src self ->
        sound_at src (parse_expr_mult n) (fun a _ => is_expression a = true) self)
  /\ (forall self, parser_inv src self ->
        sound_at src (parse_expr_div n) (fun a _ => is_expression a = true) self)
  /\ (forall self, parser_inv src self ->
        sound_at src (parse_expr_power n) (fun a _ => is_expression a = true) self)
  /\ (forall self, parser_inv src self ->
        sound_at src (parse_function_call n) (fun a _ => is_expression a = true) self)
  /\ (forall self, parser_inv src self ->
        sound_at src (parse_expr_unary n) (fun a _ => is_expression a = true) self)
  /\ (forall self, parser_inv src self ->
        sound_at src (parse_parent_expr n) (fun a _ => is_expression a = true) self)
  /\ (forall self, parser_inv src self ->
        sound_at src (parse_value n) (fun a _ => is_expression a = true) self)
  /\ (forall close self, parser_inv src self ->
        sound_at src (parse_comma_list n close) (fun l _ => all_expressions l) self)
  /\ (forall args self, parser_inv src self -> all_expressions args ->
        sound_at src (comma_loop n args) (fun l _ => all_expressions l) self).

(** What is left to read: the lookahead token, unless it is the end of
    input, and the rest of the text. *)
Definition remaining (self : Parser) : nat :=
  if kind_beq (fst (token self)) _EOI then 0
  else S (length (rest (lexer self))).

(** A parser method that comes back in state [self], with a value and a
    state that [Q] accepts or with an exception: the fuel does not run out. *)
Definition finishes_at {A} (c : M A) (Q : A -> Parser -> Prop)
           (self : Parser) : Prop :=
  match c self with
  | Done a self' => Q a self'
  | Throw _ => True
  | NoFuel => False
  end.

(** With fuel [20 * remaining + rank] a function of the descent comes back;
    [finishes_node] is for the functions that return a node, which have read
    something when they return, [finishes_list] for those that return a list,
    which may have read nothing. *)
Definition finishes_node (rank : nat) (f : nat -> M node) (n : nat) : Prop :=
  forall self,
    20 * remaining self + rank <= n ->
    finishes_at (f n) (fun _ s => remaining s < remaining self) self.

Definition finishes_list (rank : nat) (f : nat -> M (list node)) (n : nat)
  : Prop :=
  forall self,
    20 * remaining self + rank <= n ->
    finishes_at (f n) (fun _ s => remaining s <= remaining self) self.

Definition descent_finishes (n : nat) : Prop :=
  finishes_node 16 parse_function n
  /\ (forall force, finishes_node 15 (fun n => parse_codeblock n force) n)
  /\ finishes_list 14 gen_statements n
  /\ finishes_node 13 parse_statement n
  /\ finishes_node 12 parse_declaration n
  /\ finishes_node 11 parse_assignment n
  /\ finishes_node 10 parse_expression n
  /\ finishes_node 9 parse_expr_add n
  /\ finishes_node 8 parse_expr_sub n
  /\ finishes_node 7 parse_expr_mult n
  /\ finishes_node 6 parse_expr_div n
  /\ finishes_node 5 parse_expr_power n
  /\ finishes_node 4 parse_function_call n
  /\ finishes_node 3 parse_expr_unary n
  /\ finishes_node 2 parse_parent_expr n
  /\ finishes_node 1 parse_value n
  /\ (forall close, finishes_list 11 (fun n => parse_comma_list n close) n)
  /\ (forall args, finishes_list 1 (fun n => comma_loop n args) n).

(** Rows of text, each with its depth, laid out under [n] levels of
    indentation. *)
Definition layout (n : nat) (rows : list (nat * list ascii)) : list ascii :=
  concat (map (fun r => indent (n + fst r) ++ snd r ++ [newline]) rows).

Definition deeper (rows : list (nat * list ascii)) : list (nat * list ascii) :=
  map (fun r => (S (fst r), snd r)) rows.

(** A node whose display is a layout of the same rows at every depth. *)
Definition shown_as_rows (float_str : Q -> list ascii) (c : node) : Prop :=
  exists rows, forall n, display float_str c n = layout n rows.

(** * Properties *)

(** ** The pattern matcher *)

Section MatchBounds.

(** A match never ends beyond the subject. *)
Lemma iterate_le (step : list ascii -> list nat) :
  (forall s e, In e (step s) -> e <= length s) ->
  forall fuel s e, In e (iterate step fuel s) -> e <= length s.
Proof.
  intros Hstep; induction fuel as [|fuel IH]; intros s e Hin; simpl in Hin.
  - destruct Hin as [<-|[]]; lia.
  - apply in_app_or in Hin; destruct Hin as [Hin|[<-|[]]]; [|lia].
    apply in_flat_map in Hin; destruct Hin as (e1 & He1 & Hin).
    destruct (e1 =? 0); [destruct Hin|].
    apply in_map_iff in Hin; destruct Hin as (e2 & <- & He2).
    apply Hstep in He1; apply IH in He2.
    rewrite length_skipn in He2; lia.
Qed.

Lemma ends_le (r : regex) :
  forall s e, In e (ends r s) -> e <= length s.
Proof.
  induction r as [|c|p|r1 IH1 r2 IH2|r1 IH1 r2 IH2|r1 IH1|r1 IH1|r1 IH1];
    intros s e Hin; simpl in Hin.
  - destruct Hin as [<-|[]]; lia.
  - destruct s as [|a s]; [destruct Hin|].
    destruct (Ascii.eqb a c); [destruct Hin as [<-|[]]; simpl; lia|destruct Hin].
  - destruct s as [|a s]; [destruct Hin|].
    destruct (p a); [destruct Hin as [<-|[]]; simpl; lia|destruct Hin].
  - apply in_flat_map in Hin; destruct Hin as (e1 & He1 & Hin).
    apply in_map_iff in Hin; destruct Hin as (e2 & <- & He2).
    apply IH1 in He1; apply IH2 in He2.
    rewrite length_skipn in He2; lia.
  - apply in_app_or in Hin; destruct Hin; auto.
  - apply in_app_or in Hin; destruct Hin as [Hin|[<-|[]]]; [auto|lia].
  - eapply iterate_le; eauto.
  - apply in_flat_map in Hin; destruct Hin as (e1 & He1 & Hin).
    apply in_map_iff in Hin; destruct Hin as (e2 & <- & He2).
    apply IH1 in He1; apply (iterate_le _ IH1) in He2.
    rewrite length_skipn in He2; lia.
Qed.

(** A pattern that cannot match the empty string consumes a character. *)
Lemma ends_pos (r : regex) :
  nonempty r = true -> forall s e, In e (ends r s) -> 1 <= e.
Proof.
  induction r as [|c|p|r1 IH1 r2 IH2|r1 IH1 r2 IH2|r1 IH1|r1 IH1|r1 IH1];
    simpl; intros Hne s e Hin; try discriminate.
  - destruct s as [|a s]; [destruct Hin|].
    destruct (Ascii.eqb a c); [destruct Hin as [<-|[]]; lia|destruct Hin].
  - destruct s as [|a s]; [destruct Hin|].
    destruct (p a); [destruct Hin as [<-|[]]; lia|destruct Hin].
  - apply in_flat_map in Hin; destruct Hin as (e1 & He1 & Hin).
    apply in_map_iff in Hin; destruct Hin as (e2 & <- & He2).
    apply orb_true_iff in Hne; destruct Hne as [Hne|Hne].
    + specialize (IH1 Hne _ _ He1); lia.
    + specialize (IH2 Hne _ _ He2); lia.
  - apply andb_true_iff in Hne; destruct Hne.
    apply in_app_or in Hin; destruct Hin; eauto.
  - apply in_flat_map in Hin; destruct Hin as (e1 & He1 & Hin).
    apply in_map_iff in Hin; destruct Hin as (e2 & <- & He2).
    specialize (IH1 Hne _ _ He1); lia.
Qed.

Lemma re_match_bounds (r : regex) (s : list ascii) (e : nat) :
  nonempty r = true -> re_match r s = Some e -> 1 <= e <= length s.
Proof.
  unfold re_match; intros Hne Hm.
  assert (In e (ends r s)) as Hin
      by (destruct (ends r s); [discriminate|injection Hm as ->; now left]).
  split; [eapply ends_pos|eapply ends_le]; eauto.
Qed.

End MatchBounds.

(** No rule of the table matches the empty string. *)
Lemma TOKENS_nonempty : forallb (fun kv => nonempty (snd kv)) TOKENS = true.
Proof. reflexivity. Qed.

(** ** The tokenizer *)

(** The rule loop is a first-match search that consumes at least one
    character and leaves [position] at the consumption offset. *)
Lemma scan_rules_progress (rules : list (kind * regex)) (self : Lexer) :
  forallb (fun kv => nonempty (snd kv)) rules = true ->
  forall t self', scan_rules rules self = Some (t, self') ->
    code self' = code self /\
    rest self = snd t ++ rest self' /\
    1 <= length (snd t) /\
    position self' = length (code self) - length (rest self').
Proof.
  induction rules as [|[k v] rules IH]; simpl; intros Hne t self' Hs;
    [discriminate|].
  apply andb_true_iff in Hne; destruct Hne as [Hv Hne].
  destruct (re_match v (rest self)) as [e|] eqn:Hm; [|eauto].
  injection Hs as <- <-; simpl.
  apply re_match_bounds in Hm; [|assumption].
  rewrite firstn_skipn, length_firstn.
  repeat split; try lia.
Qed.

Lemma scan_rules_shrinks (self : Lexer) (t : Token) (self' : Lexer) :
  scan_rules TOKENS self = Some (t, self') ->
  length (rest self') < length (rest self).
Proof.
  intros Hs; apply scan_rules_progress in Hs; [|exact TOKENS_nonempty].
  destruct Hs as (_ & Hr & Hl & _).
  rewrite Hr, length_app; lia.
Qed.

(** The fuel handed to the blank-skipping loop is enough. *)
Lemma next_loop_fuelled (fuel : nat) :
  forall self, length (rest self) <= fuel -> next_loop fuel self <> Starved.
Proof.
  induction fuel as [|fuel IH]; intros self Hlen; cbn [next_loop].
  - destruct (scan_rules TOKENS self) as [[[k g] self']|] eqn:Hs.
    + apply scan_rules_shrinks in Hs; lia.
    + destruct (length (rest self) =? 0); discriminate.
  - destruct (scan_rules TOKENS self) as [[[k g] self']|] eqn:Hs.
    + destruct (kind_beq k _IGNORE); [|discriminate].
      apply IH. apply scan_rules_shrinks in Hs; lia.
    + destruct (length (rest self) =? 0); discriminate.
Qed.

(** [__next__] always returns or raises. *)
Lemma Lexer_next_total (self : Lexer) : Lexer_next self <> Starved.
Proof.
  unfold Lexer_next.
  destruct (length (rest self) =? 0); [discriminate|].
  now apply next_loop_fuelled.
Qed.

(** A pattern that starts with a literal character matches only a subject
    that starts with it. *)
Lemma re_match_Lit2 (a b : ascii) (s : list ascii) (e : nat) :
  re_match (Seq (Chr a) (Chr b)) s = Some e ->
  exists s', s = a :: b :: s'.
Proof.
  unfold re_match; simpl.
  destruct s as [|c s]; [discriminate|].
  destruct (Ascii.eqb_spec c a) as [->|]; [|discriminate].
  simpl. destruct s as [|d s]; [discriminate|].
  destruct (Ascii.eqb_spec d b) as [->|]; [|discriminate].
  eauto.
Qed.

Lemma re_match_Chr (a : ascii) (s : list ascii) :
  re_match (Chr a) (a :: s) = Some 1.
Proof. unfold re_match; simpl. now rewrite Ascii.eqb_refl. Qed.

(** The two-character comparison rules are shadowed by the one-character
    rules that precede them in the table. *)
Lemma scan_rules_never_two_char (self : Lexer) (k : kind) (g : list ascii)
      (self' : Lexer) :
  scan_rules TOKENS self = Some ((k, g), self') ->
  k <> LESSEQUAL /\ k <> GREATEREQUAL.
Proof.
  unfold TOKENS; cbn [scan_rules].
  repeat match goal with
         | |- context [match re_match ?v ?s with _ => _ end] =>
             let H := fresh "Hm" in destruct (re_match v s) eqn:H
         end;
    intros Heq; try discriminate; injection Heq as <- _ _;
    try (split; discriminate).
  - cbn [Lit] in *.
    match goal with
    | H : re_match (Seq _ _) _ = Some _ |- _ =>
        apply re_match_Lit2 in H; destruct H as (s' & Hs)
    end.
    rewrite Hs in *.
    match goal with
    | H : re_match (Chr _) _ = None |- _ => rewrite re_match_Chr in H
    end.
    discriminate.
  - cbn [Lit] in *.
    match goal with
    | H : re_match (Seq _ _) _ = Some _ |- _ =>
        apply re_match_Lit2 in H; destruct H as (s' & Hs)
    end.
    rewrite Hs in *.
    match goal with
    | H : re_match (Chr ">") _ = None |- _ => rewrite re_match_Chr in H
    end.
    discriminate.
Qed.

(** What a returned token tells about the step that produced it. *)
Lemma next_loop_yield (fuel : nat) :
  forall self t self',
    next_loop fuel self = Yield t self' ->
    code self' = code self /\
    length (rest self') < length (rest self) /\
    position self' = length (code self) - length (rest self') /\
    fst t <> LESSEQUAL /\ fst t <> GREATEREQUAL /\ fst t <> _IGNORE.
Proof.
  induction fuel as [|fuel IH]; intros self t self'; cbn [next_loop];
    destruct (scan_rules TOKENS self) as [[[k g] self1]|] eqn:Hs;
    try (destruct (length (rest self) =? 0); discriminate).
  - destruct (kind_beq k _IGNORE) eqn:Hk; [discriminate|].
    intros Heq; injection Heq as <- <-.
    pose proof (scan_rules_shrinks _ _ _ Hs).
    pose proof (scan_rules_never_two_char _ _ _ _ Hs) as [? ?].
    apply scan_rules_progress in Hs; [|exact TOKENS_nonempty].
    destruct Hs as (? & _ & _ & ?).
    repeat split; auto.
    simpl; intros ->; discriminate.
  - pose proof (scan_rules_shrinks _ _ _ Hs).
    pose proof (scan_rules_never_two_char _ _ _ _ Hs) as [? ?].
    pose proof (scan_rules_progress _ _ TOKENS_nonempty _ _ Hs) as (Hc & _ & _ & ?).
    destruct (kind_beq k _IGNORE) eqn:Hk.
    + intros Heq; apply IH in Heq.
      destruct Heq as (Hc' & ? & Hp & ? & ? & ?).
      rewrite Hc in Hc', Hp. repeat split; auto; lia.
    + intros Heq; injection Heq as <- <-.
      repeat split; auto.
      simpl; intros ->; discriminate.
Qed.

Lemma Lexer_next_yield (self : Lexer) (t : Token) (self' : Lexer) :
  Lexer_next self = Yield t self' ->
  code self' = code self /\
  length (rest self') < length (rest self) /\
  position self' = length (code self) - length (rest self') /\
  fst t <> LESSEQUAL /\ fst t <> GREATEREQUAL /\ fst t <> _IGNORE.
Proof.
  unfold Lexer_next.
  destruct (length (rest self) =? 0); [discriminate|].
  apply next_loop_yield.
Qed.

(** Which token comes next, and what is left after it, depends on the rest of
    the input only. *)
Lemma scan_rules_rest (rules : list (kind * regex)) (s1 s2 : Lexer) :
  rest s1 = rest s2 ->
  match scan_rules rules s1, scan_rules rules s2 with
  | Some (t1, s1'), Some (t2, s2') => t1 = t2 /\ rest s1' = rest s2'
  | None, None => True
  | _, _ => False
  end.
Proof.
  intros Hr; induction rules as [|[k v] rules IH]; simpl; [trivial|].
  rewrite <- Hr.
  destruct (re_match v (rest s1)); [simpl; auto|exact IH].
Qed.

Lemma next_loop_rest (fuel : nat) :
  forall s1 s2, rest s1 = rest s2 ->
    same_step (next_loop fuel s1) (next_loop fuel s2).
Proof.
  induction fuel as [|fuel IH]; intros s1 s2 Hr; cbn [next_loop];
    pose proof (scan_rules_rest TOKENS s1 s2 Hr) as Hs;
    destruct (scan_rules TOKENS s1) as [[[k1 g1] s1']|];
    destruct (scan_rules TOKENS s2) as [[[k2 g2] s2']|]; try contradiction;
    try (rewrite <- Hr; destruct (length (rest s1) =? 0); simpl; auto);
    destruct Hs as [Ht Hr']; injection Ht as <- <-;
    destruct (kind_beq k1 _IGNORE); simpl; auto.
Qed.

Lemma Lexer_next_rest (s1 s2 : Lexer) :
  rest s1 = rest s2 -> same_step (Lexer_next s1) (Lexer_next s2).
Proof.
  intros Hr; unfold Lexer_next; rewrite <- Hr.
  destruct (length (rest s1) =? 0); [simpl; auto|].
  now apply next_loop_rest.
Qed.

Lemma tokens_from_rest (fuel : nat) :
  forall s1 s2, rest s1 = rest s2 ->
    fst (tokens_from fuel s1) = fst (tokens_from fuel s2).
Proof.
  induction fuel as [|fuel IH]; intros s1 s2 Hr; cbn [tokens_from]; [reflexivity|].
  pose proof (Lexer_next_rest s1 s2 Hr) as Hs.
  destruct (Lexer_next s1) as [t1 s1'| | |], (Lexer_next s2) as [t2 s2'| | |];
    simpl in Hs; try contradiction; try reflexivity.
  destruct Hs as [<- Hr'].
  specialize (IH _ _ Hr').
  destruct (tokens_from fuel s1'), (tokens_from fuel s2'); simpl in *; congruence.
Qed.

(** Iterating with more fuel than there are characters left changes
    nothing: the iteration has ended before the fuel is spent. *)
Lemma tokens_from_fuel (f1 : nat) :
  forall f2 self,
    length (rest self) < f1 -> length (rest self) < f2 ->
    tokens_from f1 self = tokens_from f2 self.
Proof.
  induction f1 as [|f1 IH]; intros f2 self H1 H2; [lia|].
  destruct f2 as [|f2]; [lia|]. cbn [tokens_from].
  destruct (Lexer_next self) as [t self'| | |] eqn:Hn; try reflexivity.
  apply Lexer_next_yield in Hn; destruct Hn as (_ & Hlt & _).
  rewrite (IH f2 self') by lia. reflexivity.
Qed.

Lemma tokens_from_complete (fuel : nat) :
  forall self, length (rest self) < fuel ->
    snd (tokens_from fuel self) <> Unfinished.
Proof.
  induction fuel as [|fuel IH]; intros self Hlen; [lia|]. cbn [tokens_from].
  destruct (Lexer_next self) as [t self'| | |] eqn:Hn; simpl; try discriminate.
  - apply Lexer_next_yield in Hn; destruct Hn as (_ & Hlt & _).
    specialize (IH self'). destruct (tokens_from fuel self'); simpl in *.
    apply IH; lia.
  - now apply Lexer_next_total in Hn.
Qed.

(** [tokenize] runs the iteration to its end. *)
Lemma tokenize_complete (src : list ascii) : snd (tokenize src) <> Unfinished.
Proof. apply tokens_from_complete; simpl; lia. Qed.

Lemma tokens_from_kinds (fuel : nat) :
  forall self t, In t (fst (tokens_from fuel self)) ->
    fst t <> LESSEQUAL /\ fst t <> GREATEREQUAL /\ fst t <> _IGNORE.
Proof.
  induction fuel as [|fuel IH]; intros self t; cbn [tokens_from]; [intros []|].
  destruct (Lexer_next self) as [t1 self'| | |] eqn:Hn; try (intros []).
  specialize (IH self' t).
  destruct (tokens_from fuel self'); simpl in *.
  intros [<-|Hin]; [|auto].
  apply Lexer_next_yield in Hn; tauto.
Qed.

(** The first rule that matches decides the token, unless it is the rule for
    blanks. *)
Lemma Lexer_next_scan (self : Lexer) (k : kind) (g : list ascii) (self' : Lexer) :
  scan_rules TOKENS self = Some ((k, g), self') ->
  kind_beq k _IGNORE = false ->
  Lexer_next self = Yield (k, g) self'.
Proof.
  intros Hs Hk; unfold Lexer_next.
  pose proof (scan_rules_shrinks _ _ _ Hs) as Hlt.
  destruct (length (rest self)) as [|n]; [lia|].
  cbn [Nat.eqb next_loop]. now rewrite Hs, Hk.
Qed.

Lemma init_position (w suffix : list ascii) :
  length (w ++ suffix) - length suffix = length w.
Proof. rewrite length_app; lia. Qed.

(** The token stream of a text that starts with a token is that token
    followed by the token stream of what is left. *)
Lemma tokenize_cons (src : list ascii) (t : Token) (self' : Lexer) :
  Lexer_next (Lexer_init src) = Yield t self' ->
  fst (tokenize src) = t :: fst (tokenize (rest self')).
Proof.
  intros Hn; unfold tokenize; cbn [tokens_from]; rewrite Hn.
  apply Lexer_next_yield in Hn; destruct Hn as (_ & Hlt & _); simpl in Hlt.
  transitivity (t :: fst (tokens_from (length src) self'));
    [destruct (tokens_from (length src) self'); reflexivity|].
  rewrite (tokens_from_rest _ self' (Lexer_init (rest self'))) by reflexivity.
  rewrite (tokens_from_fuel (length src) (S (length (rest self'))))
    by (simpl; lia).
  reflexivity.
Qed.

Example tokenize_sample :
  tokenize (text "while x1 {
  y = 3.25 ** (x1 / 2) }") =
  ([(KW_WHILE, text "while"); (IDENT, text "x1"); (LEFT_BRACE, text "{");
    (IDENT, text "y"); (EQUALS, text "="); (NUMBER, text "3.25");
    (BIN_POWER, text "**"); (LEFT_PARENT, text "("); (IDENT, text "x1");
    (BIN_DIV, text "/"); (NUMBER, text "2"); (RIGHT_PARENT, text ")");
    (RIGHT_BRACE, text "}")], Exhausted).
Proof. vm_compute. reflexivity. Qed.

Example tokenize_variable :
  tokenize (text "variable") =
  ([(KW_VAR, text "var"); (IDENT, text "iable")], Exhausted).
Proof. vm_compute. reflexivity. Qed.

(** C4.  An input that starts with the letters of a reserved word ([var],
    [fun], [while], [return], [extern], [not]) yields the token of that word
    first, whatever follows --- in particular when further identifier
    characters follow, as in [variable] --- and the characters after the word
    are then tokenized on their own: the lexer is left on exactly that suffix,
    and the token stream is the reserved word's token followed by the token
    stream of the suffix. *)
Theorem keyword_prefix_is_split (k : kind) (w : string) (suffix : list ascii) :
  In (k, w) keywords ->
  Lexer_next (Lexer_init (text w ++ suffix)) =
    Yield (k, text w)
          {| code := text w ++ suffix; rest := suffix;
             position := length (text w) |}
  /\ fst (tokenize (text w ++ suffix)) = (k, text w) :: fst (tokenize suffix).
Proof.
  intros Hin.
  assert (Lexer_next (Lexer_init (text w ++ suffix)) =
            Yield (k, text w)
                  {| code := text w ++ suffix; rest := suffix;
                     position := length (text w) |}) as Hn.
  { rewrite <- (init_position (text w) suffix).
    simpl in Hin.
    repeat (destruct Hin as [Hin|Hin];
            [injection Hin as <- <-; apply Lexer_next_scan; reflexivity|]).
    destruct Hin. }
  split; [exact Hn|].
  now rewrite (tokenize_cons _ _ _ Hn).
Qed.

Lemma keyword_prefix_is_split_witness :
  In (KW_VAR, "var"%string) keywords /\
  (Lexer_next (Lexer_init (text "var" ++ text "iable")) =
     Yield (KW_VAR, text "var")
           {| code := text "var" ++ text "iable"; rest := text "iable";
              position := length (text "var") |}
   /\ fst (tokenize (text "var" ++ text "iable")) =
        (KW_VAR, text "var") :: fst (tokenize (text "iable"))).
Proof.
  split; [simpl; auto|].
  apply keyword_prefix_is_split; simpl; auto.
Defined.

(** C10.  No token of kind LESSEQUAL or GREATEREQUAL is ever produced: the
    token stream of any text holds none (and the stream is complete), and
    wherever the rest of the input starts with [<=] the lexer returns
    LESSTHAN and then EQUALS, wherever it starts with [>=] it returns
    GREATERTHAN and then EQUALS. *)
Theorem two_char_comparisons_never_emitted :
  (forall src,
      Forall (fun t => fst t <> LESSEQUAL /\ fst t <> GREATEREQUAL)
             (fst (tokenize src))
      /\ snd (tokenize src) <> Unfinished)
  /\ (forall src tail pos,
         let s0 := mkLexer src ("<" :: "=" :: tail)%char pos in
         let s1 := mkLexer src ("=" :: tail)%char
                           (length src - length ("=" :: tail)%char) in
         let s2 := mkLexer src tail (length src - length tail) in
         Lexer_next s0 = Yield (LESSTHAN, text "<") s1
         /\ Lexer_next s1 = Yield (EQUALS, text "=") s2)
  /\ (forall src tail pos,
         let s0 := mkLexer src (">" :: "=" :: tail)%char pos in
         let s1 := mkLexer src ("=" :: tail)%char
                           (length src - length ("=" :: tail)%char) in
         let s2 := mkLexer src tail (length src - length tail) in
         Lexer_next s0 = Yield (GREATERTHAN, text ">") s1
         /\ Lexer_next s1 = Yield (EQUALS, text "=") s2)
  /\ tokenize (text "<=") =
       ([(LESSTHAN, text "<"); (EQUALS, text "=")], Exhausted)
  /\ tokenize (text ">=") =
       ([(GREATERTHAN, text ">"); (EQUALS, text "=")], Exhausted).
Proof.
  split; [|split; [|split; [|split]]].
  - intros src; split; [|apply tokenize_complete].
    apply Forall_forall; intros t Hin.
    apply tokens_from_kinds in Hin; tauto.
  - intros src tail pos; split; apply Lexer_next_scan; reflexivity.
  - intros src tail pos; split; apply Lexer_next_scan; reflexivity.
  - vm_compute; reflexivity.
  - vm_compute; reflexivity.
Qed.

Lemma iterate_nonempty (step : list ascii -> list nat) (fuel : nat)
      (s : list ascii) :
  iterate step fuel s <> [].
Proof.
  destruct fuel; simpl; [discriminate|].
  intros Heq; apply app_eq_nil in Heq; destruct Heq; discriminate.
Qed.

Lemma flat_map_nonempty {A B} (f : A -> list B) (l : list A) :
  l <> [] -> (forall x, f x <> []) -> flat_map f l <> [].
Proof.
  destruct l as [|x l]; [contradiction|]; intros _ Hf; simpl.
  intros Heq; apply app_eq_nil in Heq; destruct Heq as [Heq _].
  now apply Hf in Heq.
Qed.

Lemma map_nonempty {A B} (f : A -> B) (l : list A) : l <> [] -> map f l <> [].
Proof. destruct l; [contradiction|discriminate]. Qed.

Lemma ends_Seq (r1 r2 : regex) (s : list ascii) :
  ends (Seq r1 r2) s =
  flat_map (fun e1 => map (Nat.add e1) (ends r2 (skipn e1 s))) (ends r1 s).
Proof. reflexivity. Qed.

Lemma ends_Plus (r : regex) (s : list ascii) :
  ends (Plus r) s =
  flat_map (fun e1 => map (Nat.add e1)
                          (iterate (ends r) (length s) (skipn e1 s)))
           (ends r s).
Proof. reflexivity. Qed.

Lemma ends_Opt (r : regex) (s : list ascii) : ends (Opt r) s = ends r s ++ [0].
Proof. reflexivity. Qed.

(** The decimal alternative matches whatever starts with a digit. *)
Lemma decimal_literal_matches (a : ascii) (s : list ascii) :
  digit a = true -> ends decimal_literal (a :: s) <> [].
Proof.
  intros Ha; unfold decimal_literal; rewrite ends_Seq.
  apply flat_map_nonempty.
  - rewrite ends_Plus. apply flat_map_nonempty.
    + cbn [ends]. rewrite Ha. discriminate.
    + intros e; apply map_nonempty, iterate_nonempty.
  - intros e; apply map_nonempty. rewrite ends_Opt.
    intros Heq; apply app_eq_nil in Heq; destruct Heq; discriminate.
Qed.

(** The hexadecimal and octal alternatives of the NUMBER pattern never decide
    a match: both need a leading [0], which the decimal alternative, tried
    first, matches. *)
Lemma number_literal_is_decimal (s : list ascii) :
  re_match number_literal s = re_match decimal_literal s.
Proof.
  unfold re_match, number_literal; cbn [ends].
  destruct s as [|a s]; [reflexivity|].
  destruct (digit a) eqn:Ha.
  - pose proof (decimal_literal_matches a s Ha) as Hne.
    destruct (ends decimal_literal (a :: s)); [contradiction|reflexivity].
  - assert (Ascii.eqb a "0" = false) as H0.
    { destruct (Ascii.eqb_spec a "0") as [->|]; [discriminate|reflexivity]. }
    unfold decimal_literal, hex_literal, octal_literal.
    rewrite !ends_Seq, ends_Plus. cbn [Lit]. rewrite !ends_Seq.
    cbn [ends]. rewrite Ha, H0. reflexivity.
Qed.

(** *** NUMBER lexemes are decimal numerals *)

Lemma firstn_plus {A} (n m : nat) (l : list A) :
  firstn (n + m) l = firstn n l ++ firstn m (skipn n l).
Proof.
  revert l; induction n as [|n IH]; intros l; [reflexivity|].
  destruct l as [|x l]; simpl; [now rewrite firstn_nil|].
  now rewrite IH.
Qed.

Lemma iterate_class (p : ascii -> bool) (fuel : nat) :
  forall s e, In e (iterate (ends (Class p)) fuel s) ->
              forallb p (firstn e s) = true.
Proof.
  induction fuel as [|fuel IH]; intros s e Hin; cbn [iterate] in Hin.
  - destruct Hin as [<-|[]]; reflexivity.
  - apply in_app_or in Hin; destruct Hin as [Hin|[<-|[]]]; [|reflexivity].
    apply in_flat_map in Hin; destruct Hin as (e1 & He1 & Hin).
    cbn [ends] in He1. destruct s as [|a s]; [destruct He1|].
    destruct (p a) eqn:Ha; [|destruct He1].
    destruct He1 as [<-|[]]. cbn [Nat.eqb] in Hin.
    apply in_map_iff in Hin; destruct Hin as (e2 & <- & He2).
    apply IH in He2. simpl. now rewrite Ha.
Qed.

Lemma plus_class (p : ascii -> bool) (s : list ascii) (e : nat) :
  In e (ends (Plus (Class p)) s) ->
  negb (length (firstn e s) =? 0) && forallb p (firstn e s) = true.
Proof.
  rewrite ends_Plus; intros Hin.
  apply in_flat_map in Hin; destruct Hin as (e1 & He1 & Hin).
  cbn [ends] in He1. destruct s as [|a s]; [destruct He1|].
  destruct (p a) eqn:Ha; [|destruct He1].
  destruct He1 as [<-|[]].
  apply in_map_iff in Hin; destruct Hin as (e2 & <- & He2).
  apply iterate_class in He2. simpl. now rewrite Ha.
Qed.

Lemma digit_not_dot (s : list ascii) :
  forallb digit s = true -> ~ In "."%char s.
Proof.
  rewrite forallb_forall; intros Hall Hin. apply Hall in Hin. discriminate.
Qed.

Lemma split_at_dot_none (s : list ascii) :
  ~ In "."%char s -> split_at_dot s = (s, None).
Proof.
  induction s as [|c s IH]; simpl; intros Hn; [reflexivity|].
  destruct (Ascii.eqb_spec c ".") as [->|_]; [exfalso; auto|].
  rewrite IH by auto. reflexivity.
Qed.

Lemma split_at_dot_some (ip fp : list ascii) :
  ~ In "."%char ip -> split_at_dot (ip ++ "."%char :: fp) = (ip, Some fp).
Proof.
  induction ip as [|c ip IH]; simpl; intros Hn; [reflexivity|].
  destruct (Ascii.eqb_spec c ".") as [->|_]; [exfalso; auto|].
  rewrite IH by auto. reflexivity.
Qed.

(** What the decimal alternative matches, [float] converts. *)
Lemma decimal_literal_converts (s : list ascii) (e : nat) :
  In e (ends decimal_literal s) -> exists q, float_of (firstn e s) = Ok q.
Proof.
  unfold decimal_literal; rewrite ends_Seq; intros Hin.
  apply in_flat_map in Hin; destruct Hin as (e1 & He1 & Hin).
  apply in_map_iff in Hin; destruct Hin as (e2 & <- & He2).
  apply plus_class in He1.
  pose proof He1 as Hip; apply andb_true_iff in Hip; destruct Hip as [_ Hip].
  apply digit_not_dot in Hip.
  rewrite firstn_plus. rewrite ends_Opt in He2.
  apply in_app_or in He2; destruct He2 as [He2|[<-|[]]].
  - rewrite ends_Seq in He2.
    apply in_flat_map in He2; destruct He2 as (d & Hd & He2).
    apply in_map_iff in He2; destruct He2 as (e3 & <- & He3).
    cbn [ends] in Hd. destruct (skipn e1 s) as [|c t] eqn:Hsk; [destruct Hd|].
    destruct (Ascii.eqb_spec c ".") as [->|_]; [|destruct Hd].
    destruct Hd as [<-|[]]. cbn [skipn] in He3. apply plus_class in He3.
    cbn [Nat.add firstn].
    unfold float_of. rewrite split_at_dot_some by assumption.
    unfold all_digits. rewrite He1, He3. cbn [andb]. eauto.
  - cbn [firstn]. rewrite app_nil_r.
    unfold float_of. rewrite split_at_dot_none by assumption.
    unfold all_digits. rewrite He1. eauto.
Qed.

Lemma scan_rules_number (self : Lexer) (g : list ascii) (self' : Lexer) :
  scan_rules TOKENS self = Some ((NUMBER, g), self') ->
  exists q, float_of g = Ok q.
Proof.
  unfold TOKENS; cbn [scan_rules].
  repeat match goal with
         | |- context [match re_match ?v ?s with _ => _ end] =>
             let H := fresh "Hm" in destruct (re_match v s) eqn:H
         end;
    intros Heq; try discriminate; injection Heq as <- _.
  match goal with
  | H : re_match number_literal _ = Some _ |- _ =>
      rewrite number_literal_is_decimal in H; unfold re_match in H;
      apply decimal_literal_converts;
      destruct (ends decimal_literal (rest self)); [discriminate|];
      injection H as ->; now left
  end.
Qed.

Lemma next_loop_number (fuel : nat) :
  forall self g self',
    next_loop fuel self = Yield (NUMBER, g) self' -> exists q, float_of g = Ok q.
Proof.
  induction fuel as [|fuel IH]; intros self g self'; cbn [next_loop];
    destruct (scan_rules TOKENS self) as [[[k g1] self1]|] eqn:Hs;
    try (destruct (length (rest self) =? 0); discriminate);
    destruct (kind_beq k _IGNORE); try discriminate; eauto;
    intros Heq; injection Heq as -> -> ->; eapply scan_rules_number; eauto.
Qed.

(** The lexeme of every NUMBER token the lexer returns is a decimal numeral,
    which [float] converts: [ValueNode] never fails on it. *)
Lemma number_lexeme_converts (self : Lexer) (g : list ascii) (self' : Lexer) :
  Lexer_next self = Yield (NUMBER, g) self' -> exists q, float_of g = Ok q.
Proof.
  unfold Lexer_next. destruct (length (rest self) =? 0); [discriminate|].
  apply next_loop_number.
Qed.

(** C3 (what the code does instead).  A literal written [0x...] or [0o...] is
    never one NUMBER token: the decimal alternative of the NUMBER pattern comes
    first and matches the leading [0], so the hexadecimal and octal
    alternatives never decide a match; the lexer returns NUMBER [0] and is
    left on the [x] or [o], which then starts an identifier. *)
Theorem hex_and_octal_literals_are_split :
  (In (NUMBER, number_literal) TOKENS
   /\ forall s, re_match number_literal s = re_match decimal_literal s)
  /\ (forall tail,
      Lexer_next (Lexer_init ("0" :: "x" :: tail)%char) =
        Yield (NUMBER, text "0")
              {| code := ("0" :: "x" :: tail)%char; rest := ("x" :: tail)%char;
                 position := 1 |})
  /\ (forall tail,
         Lexer_next (Lexer_init ("0" :: "o" :: tail)%char) =
           Yield (NUMBER, text "0")
                 {| code := ("0" :: "o" :: tail)%char; rest := ("o" :: tail)%char;
                    position := 1 |})
  /\ tokenize (text "0x1A") =
       ([(NUMBER, text "0"); (IDENT, text "x1A")], Exhausted)
  /\ tokenize (text "0o17") =
       ([(NUMBER, text "0"); (IDENT, text "o17")], Exhausted).
Proof.
  assert (forall c tail,
             mkLexer ("0" :: c :: tail)%char (c :: tail) 1 =
             mkLexer ("0" :: c :: tail)%char (c :: tail)
                     (length ("0" :: c :: tail)%char - length (c :: tail)))
    as Hpos by (intros; f_equal; cbn [length]; lia).
  split; [|split; [|split; [|split]]].
  - split; [unfold TOKENS; simpl; tauto|exact number_literal_is_decimal].
  - intros tail; rewrite Hpos; apply Lexer_next_scan; reflexivity.
  - intros tail; rewrite Hpos; apply Lexer_next_scan; reflexivity.
  - vm_compute; reflexivity.
  - vm_compute; reflexivity.
Qed.

(** ** Diagnostics *)

Lemma split_lines_one (a : list ascii) :
  ~ In newline a -> split_lines a = [a].
Proof.
  induction a as [|c a IH]; simpl; intros Hn; [reflexivity|].
  destruct (Ascii.eqb_spec c newline) as [->|_]; [exfalso; auto|].
  rewrite IH by auto. reflexivity.
Qed.

Lemma split_lines_app (a b : list ascii) :
  ~ In newline a -> split_lines (a ++ newline :: b) = a :: split_lines b.
Proof.
  induction a as [|c a IH]; simpl; intros Hn; [reflexivity|].
  destruct (Ascii.eqb_spec c newline) as [->|_]; [exfalso; auto|].
  rewrite IH by auto. reflexivity.
Qed.

Lemma split_lines_free (s : list ascii) :
  Forall (fun l => ~ In newline l) (split_lines s).
Proof.
  induction s as [|c s IH]; simpl; [constructor; auto|].
  destruct (Ascii.eqb_spec c newline) as [->|Hc]; [constructor; auto|].
  destruct (split_lines s) as [|l ls]; constructor.
  - intros [->|[]]; auto.
  - constructor.
  - inversion IH; subst. intros [->|Hin]; auto.
  - inversion IH; subst; assumption.
Qed.

Lemma digit_char_value (d : nat) :
  d < 10 -> nat_of_ascii (ascii_of_nat (48 + d)) = 48 + d.
Proof. intros Hd; apply nat_ascii_embedding; lia. Qed.

Lemma str_digits_free (fuel : nat) :
  forall n acc, ~ In newline acc -> ~ In newline (str_digits fuel n acc).
Proof.
  induction fuel as [|fuel IH]; intros n acc Hacc; cbn [str_digits];
    [assumption|].
  assert (~ In newline (ascii_of_nat (48 + n mod 10) :: acc)) as Hacc'.
  { intros [Heq|Hin]; [|auto].
    apply (f_equal nat_of_ascii) in Heq.
    rewrite digit_char_value in Heq
      by (apply Nat.mod_upper_bound; discriminate).
    change (nat_of_ascii newline) with 10 in Heq; lia. }
  destruct (n <? 10); [assumption|now apply IH].
Qed.

Lemma str_digits_length (fuel : nat) :
  forall n acc,
    length (str_digits fuel n acc) = digit_count_fuel fuel n + length acc.
Proof.
  induction fuel as [|fuel IH]; intros n acc;
    cbn [str_digits digit_count_fuel]; [reflexivity|].
  destruct (n <? 10); [reflexivity|].
  rewrite IH; cbn [length]; lia.
Qed.

(** [str n] has as many characters as [n] has decimal digits. *)
Lemma str_length (n : nat) : length (str n) = digit_count n.
Proof. unfold str, digit_count; rewrite str_digits_length; simpl; lia. Qed.

Lemma digits_value_shift (ds : list ascii) :
  forall a : Z,
    fold_left (fun acc c => (10 * acc + Z.of_nat (nat_of_ascii c - 48))%Z) ds a =
    (a * 10 ^ Z.of_nat (length ds) + digits_value ds)%Z.
Proof.
  unfold digits_value; induction ds as [|d ds IH]; intros a.
  - simpl; lia.
  - cbn [fold_left length]. rewrite IH, (IH (10 * 0 + _)%Z).
    rewrite Nat2Z.inj_succ, Z.pow_succ_r by lia. lia.
Qed.

Lemma str_digits_value (fuel : nat) :
  forall n acc, n < fuel ->
    digits_value (str_digits fuel n acc) =
    (Z.of_nat n * 10 ^ Z.of_nat (length acc) + digits_value acc)%Z.
Proof.
  induction fuel as [|fuel IH]; intros n acc Hn; [lia|]. cbn [str_digits].
  assert (n mod 10 < 10) as Hd by (apply Nat.mod_upper_bound; discriminate).
  assert (digits_value (ascii_of_nat (48 + n mod 10) :: acc) =
            (Z.of_nat (n mod 10) * 10 ^ Z.of_nat (length acc)
             + digits_value acc)%Z) as Hcons.
  { unfold digits_value at 1; cbn [fold_left].
    rewrite digits_value_shift, digit_char_value by assumption.
    replace (48 + n mod 10 - 48) with (n mod 10) by lia. lia. }
  destruct (Nat.ltb_spec n 10) as [Hlt|Hge].
  - rewrite Hcons, Nat.mod_small by assumption. reflexivity.
  - assert (n / 10 < n) by (apply Nat.div_lt; lia).
    rewrite IH by lia. rewrite Hcons. cbn [length].
    rewrite Nat2Z.inj_succ, Z.pow_succ_r by lia.
    pose proof (Nat.div_mod_eq n 10) as Heq.
    apply (f_equal Z.of_nat) in Heq.
    rewrite Nat2Z.inj_add, Nat2Z.inj_mul in Heq.
    change (Z.of_nat 10) with 10%Z in Heq.
    rewrite Heq. ring.
Qed.

(** [str n] is a decimal numeral of [n]. *)
Lemma str_value (n : nat) : digits_value (str n) = Z.of_nat n.
Proof.
  unfold str. rewrite str_digits_value by lia. simpl.
  unfold digits_value; simpl. lia.
Qed.

Lemma repeat_space_free (k : nat) : ~ In newline (repeat space k).
Proof. intros Hin; apply repeat_spec in Hin; discriminate. Qed.

Lemma render_lines (m s : list ascii) (p : LineCol) :
  render m s p =
  m ++ newline
    :: (str (line p) ++ text "| " ++ s) ++ newline
    :: (repeat space (col p + length (str (line p))) ++ text "^").
Proof. unfold render; rewrite <- !app_assoc; reflexivity. Qed.

(** C7.  The rendering of an error with message [m], source line [s], line
    number [N] and column [c] has exactly three lines: [m]; the decimal digits
    of [N] followed by a bar, a blank and [s]; and [c] plus the number of
    digits of [N] blanks followed by one caret.  Messages and source lines
    hold no newline. *)
Theorem rendering_has_three_lines (m s : list ascii) (N c : nat) :
  ~ In newline m ->
  ~ In newline s ->
  split_lines (render m s (at_pos N c)) =
    [ m;
      str N ++ text "| " ++ s;
      repeat space (c + digit_count N) ++ text "^" ]
  /\ digits_value (str N) = Z.of_nat N
  /\ length (str N) = digit_count N.
Proof.
  intros Hm Hs. split; [|split; [apply str_value|apply str_length]].
  rewrite render_lines; cbn [line col at_pos].
  rewrite str_length.
  rewrite split_lines_app by assumption. f_equal.
  rewrite split_lines_app, split_lines_one; [reflexivity| |].
  - intros Hin; apply in_app_or in Hin; destruct Hin as [Hin|Hin].
    + now apply repeat_space_free in Hin.
    + destruct Hin as [Heq|[]]; discriminate.
  - intros Hin; apply in_app_or in Hin; destruct Hin as [Hin|Hin].
    + revert Hin; apply str_digits_free; auto.
    + apply in_app_or in Hin; destruct Hin as [Hin|Hin]; [|auto].
      simpl in Hin; destruct Hin as [Heq|[Heq|[]]]; discriminate.
Qed.

Lemma rendering_has_three_lines_witness :
  ~ In newline (text "Syntax error") /\
  ~ In newline (text "1 = 2") /\
  (split_lines (render (text "Syntax error") (text "1 = 2") (at_pos 1 6)) =
     [ text "Syntax error";
       str 1 ++ text "| " ++ text "1 = 2";
       repeat space (6 + digit_count 1) ++ text "^" ]
   /\ digits_value (str 1) = Z.of_nat 1
   /\ length (str 1) = digit_count 1).
Proof.
  assert (~ In newline (text "Syntax error")) as Hm
      by (simpl; intuition discriminate).
  assert (~ In newline (text "1 = 2")) as Hs
      by (simpl; intuition discriminate).
  split; [exact Hm|split; [exact Hs|]].
  exact (rendering_has_three_lines _ _ 1 6 Hm Hs).
Defined.

(** ** The position resolver *)

Lemma linecol_loop_line (lines : list (list ascii)) :
  forall i curpos pos lc,
    linecol_loop lines i curpos pos = Some lc ->
    i + 1 <= line lc <= i + length lines.
Proof.
  induction lines as [|l lines IH]; simpl; intros i curpos pos lc Hl;
    [discriminate|].
  destruct (pos <=? curpos + length l).
  - injection Hl as <-; simpl; lia.
  - apply IH in Hl; lia.
Qed.

Lemma split_lines_nonempty (s : list ascii) : 1 <= length (split_lines s).
Proof.
  induction s as [|c s IH]; simpl; [lia|].
  destruct (Ascii.eqb c newline); simpl; [lia|].
  destruct (split_lines s); simpl in *; lia.
Qed.

(** The resolver always names a line of the text. *)
Lemma linecol_line_range (self : Lexer) (pos : nat) :
  1 <= line (linecol_from_position self pos) <= length (split_lines (code self)).
Proof.
  unfold linecol_from_position.
  pose proof (split_lines_nonempty (code self)).
  destruct (linecol_loop _ 0 0 pos) as [lc|] eqn:Hl; simpl; [|lia].
  apply linecol_loop_line in Hl; lia.
Qed.

Lemma get_line_loop_found (lines : list (list ascii)) :
  forall i lineno,
    i + 1 <= lineno <= i + length lines ->
    exists l, get_line_loop lines i lineno = Some l /\ In l lines.
Proof.
  induction lines as [|l lines IH]; simpl; intros i lineno Hr; [lia|].
  destruct (Nat.eqb_spec (i + 1) lineno) as [_|Hne]; [eauto|].
  destruct (IH (S i) lineno) as (l' & -> & Hin); [lia|eauto].
Qed.

(** [cur_line] never fails, and the line it returns holds no newline. *)
Lemma cur_line_ok (self : Lexer) :
  exists l, cur_line self = Ok l /\ ~ In newline l.
Proof.
  unfold cur_line, get_line.
  destruct (get_line_loop_found (split_lines (code self)) 0
                                (line (linecol self))) as (l & -> & Hin).
  - pose proof (linecol_line_range self (position self)). unfold linecol. lia.
  - exists l; split; [reflexivity|].
    pose proof (split_lines_free (code self)) as Hfree.
    rewrite Forall_forall in Hfree. now apply Hfree.
Qed.

(** Errors raised at the lexer's position are rendered from a message, a
    source line without newline and the resolved position. *)
Lemma parse_error_here_shape (self : Lexer) (message : list ascii) :
  exists l, ~ In newline l /\
            parse_error_here self message = mkParseError message l (linecol self).
Proof.
  destruct (cur_line_ok self) as (l & Hl & Hfree).
  exists l; split; [assumption|].
  unfold parse_error_here; now rewrite Hl.
Qed.

Lemma walk_first_line (s : list ascii) :
  forall p l c,
    p <= length (hd [] (split_lines s)) ->
    walk s p l c = {| line := l; col := c + p |}.
Proof.
  induction s as [|ch s IH]; intros p l c Hp.
  - simpl in Hp. assert (p = 0) as -> by lia. simpl. now rewrite Nat.add_0_r.
  - destruct p as [|p]; [simpl; now rewrite Nat.add_0_r|].
    simpl in Hp |- *.
    destruct (Ascii.eqb ch newline); [simpl in Hp; lia|].
    rewrite IH.
    + f_equal; lia.
    + destruct (split_lines s); simpl in *; lia.
Qed.

(** X16.  On the first line of a text the resolver is right: an offset up to
    the end of the first line resolves to line 1 and the column of that
    offset. *)
Lemma linecol_first_line (src : list ascii) (p : nat) :
  p <= length (hd [] (split_lines src)) ->
  linecol_from_position (Lexer_init src) p = at_pos 1 (p + 1)
  /\ char_linecol src p = at_pos 1 (p + 1).
Proof.
  intros Hp; split.
  - unfold linecol_from_position; simpl.
    pose proof (split_lines_nonempty src).
    destruct (split_lines src) as [|l ls]; [simpl in *; lia|].
    simpl in Hp |- *.
    destruct (Nat.leb_spec p (length l)); [|lia].
    unfold at_pos; f_equal; lia.
  - unfold char_linecol; rewrite walk_first_line by assumption.
    unfold at_pos; f_equal; lia.
Qed.

(** C8 (where the code departs).  Past the first line the resolver is off:
    its running offset leaves out the newline that ends each line.  In the
    two-line text [a], newline, [b] the character [b] is at offset 2, the
    first column of line 2; the resolver returns column 2.  With blank lines
    before the offset it may also name a later line. *)
Theorem resolver_wrong_after_first_line :
  let src := text "a" ++ newline :: text "b" in
  let src' := text "a" ++ newline :: newline :: newline :: text "b" in
  2 < length src
  /\ char_linecol src 2 = at_pos 2 1
  /\ linecol_from_position (Lexer_init src) 2 = at_pos 2 2
  /\ 2 < length src'
  /\ char_linecol src' 2 = at_pos 2 1
  /\ linecol_from_position (Lexer_init src') 2 = at_pos 4 2.
Proof. vm_compute. repeat split; lia. Qed.

(** ** The parser: more fuel never changes a result *)

Lemma mrefines_refl {A} (c : M A) : mrefines c c.
Proof. intros self; now right. Qed.

Lemma mrefines_starve {A} (c : M A) : mrefines starve c.
Proof. intros self; now left. Qed.

Lemma mrefines_bind {A B} (c1 c2 : M A) (k1 k2 : A -> M B) :
  mrefines c1 c2 ->
  (forall a, mrefines (k1 a) (k2 a)) ->
  mrefines (bind c1 k1) (bind c2 k2).
Proof.
  intros Hc Hk self; unfold bind.
  destruct (Hc self) as [Hr|Hr]; rewrite Hr; [now left|].
  destruct (c2 self) as [a self'| |]; [apply Hk|now right|now right].
Qed.

Ltac mono_step :=
  repeat first
    [ assumption
    | match goal with H : forall _, mrefines _ _ |- _ => apply H end
    | apply mrefines_refl
    | apply mrefines_bind; [|intros ?]
    | match goal with
      | |- mrefines (if ?b then _ else _) _ => destruct b
      | |- mrefines (match ?x with _ => _ end) _ => destruct x
      end ].

Lemma descent_mono_all (n : nat) : forall m, n <= m -> descent_mono n m.
Proof.
  induction n as [|n IH]; intros m Hle.
  - unfold descent_mono; repeat split; intros; apply mrefines_starve.
  - destruct m as [|m]; [lia|].
    destruct (IH m ltac:(lia))
      as (? & ? & ? & ? & ? & ? & ? & ? & ? & ? & ? & ? & ? & ? & ? & ? & ? & ?).
    unfold descent_mono; repeat split; intros;
      cbn [parse_function parse_codeblock gen_statements parse_statement
           parse_declaration parse_assignment parse_expression parse_expr_add
           parse_expr_sub parse_expr_mult parse_expr_div parse_expr_power
           parse_function_call parse_expr_unary parse_parent_expr parse_value
           parse_comma_list comma_loop];
      mono_step.
Qed.

Lemma gen_functions_mono (n : nat) :
  forall m, n <= m -> mrefines (gen_functions n) (gen_functions m).
Proof.
  induction n as [|n IH]; intros m Hle; [apply mrefines_starve|].
  destruct m as [|m]; [lia|].
  pose proof (IH m ltac:(lia)).
  destruct (descent_mono_all n m ltac:(lia)) as (? & _).
  cbn [gen_functions]; mono_step.
Qed.

Lemma parse_mono (n m : nat) : n <= m -> mrefines (parse n) (parse m).
Proof.
  intros Hle; pose proof (gen_functions_mono n m Hle).
  unfold parse; mono_step.
Qed.

(** Once the fuel is enough for [parse] to come back, with a tree or with an
    exception, any larger amount gives the same. *)
Lemma parse_text_more_fuel (n k : nat) (src : list ascii) :
  parse_text n src <> Incomplete ->
  parse_text (n + k) src = parse_text n src.
Proof.
  unfold parse_text, run.
  destruct (Parser_init src false) as [[] self|e|]; [|reflexivity|reflexivity].
  destruct (parse_mono n (n + k) ltac:(lia) self) as [Hr|Hr]; rewrite Hr;
    [intros []; reflexivity|reflexivity].
Qed.

Lemma descent_more_fuel {A} (c1 c2 : M A) (p : outcome unit) (a : A)
      (self' : Parser) :
  mrefines c1 c2 -> run c1 p = Done a self' -> run c2 p = Done a self'.
Proof.
  intros Hc; destruct p as [[] self|e|]; simpl; [|discriminate|discriminate].
  destruct (Hc self) as [Hr|Hr]; rewrite Hr; [discriminate|trivial].
Qed.

Lemma parse_expression_mono (n m : nat) :
  n <= m -> mrefines (parse_expression n) (parse_expression m).
Proof. intros Hle; apply (descent_mono_all n m Hle). Qed.

(** ** Every error raised is a rendered diagnostic *)

Lemma one_line_free (s : list ascii) : one_line s = true -> ~ In newline s.
Proof.
  unfold one_line; rewrite forallb_forall; intros Hall Hin.
  apply Hall in Hin. now rewrite Ascii.eqb_refl in Hin.
Qed.


























(** ** Spans on a text of one line *)

(** Induction on a tree, with the property at hand for all children. *)
Lemma node_children_ind (P : node -> Prop) :
  (forall n, Forall P (children n) -> P n) -> forall n, P n.
Proof.
  intros Hstep.
  refine (fix IH (n : node) : P n := _).
  apply Hstep; destruct n as [| ? ? e | | ? l ? r | ? ? e | ? e | ? b | ? c b
                             | | ? ? a b | ? ? a | ? ? a]; simpl.
  - constructor.
  - exact (Forall_cons e (IH e) (Forall_nil P)).
  - constructor.
  - exact (Forall_cons l (IH l) (Forall_cons r (IH r) (Forall_nil P))).
  - exact (Forall_cons e (IH e) (Forall_nil P)).
  - exact (Forall_cons e (IH e) (Forall_nil P)).
  - induction b as [|x b IHb]; [constructor|exact (Forall_cons x (IH x) IHb)].
  - exact (Forall_cons c (IH c) (Forall_cons b (IH b) (Forall_nil P))).
  - constructor.
  - apply Forall_app; split; [|exact (Forall_cons b (IH b) (Forall_nil P))].
    induction a as [|x a IHa]; [constructor|exact (Forall_cons x (IH x) IHa)].
  - induction a as [|x a IHa]; [constructor|exact (Forall_cons x (IH x) IHa)].
  - induction a as [|x a IHa]; [constructor|exact (Forall_cons x (IH x) IHa)].
Qed.

Lemma well_spanned_children (n : node) :
  well_spanned n =
  span_ordered (span_of n)
  && forallb (fun c => span_within (span_of c) (span_of n)) (children n)
  && forallb well_spanned (children n).
Proof.
  destruct n; simpl; rewrite ?andb_true_r; try reflexivity.
  f_equal. rewrite forallb_app; simpl. now rewrite andb_true_r.
Qed.

Lemma inside_weaken (lo hi lo' hi' : nat) (n : node) :
  inside lo hi n -> lo' <= lo -> hi <= hi' -> inside lo' hi' n.
Proof.
  intros Hin Hlo Hhi; inversion Hin; subst.
  eapply inside_node; eauto; lia.
Qed.

Lemma inside_all_weaken (lo hi lo' hi' : nat) (l : list node) :
  Forall (inside lo hi) l -> lo' <= lo -> hi <= hi' -> Forall (inside lo' hi') l.
Proof.
  intros Hall Hlo Hhi; eapply Forall_impl; [|exact Hall].
  intros n Hn; eapply inside_weaken; eauto.
Qed.

(** A tree inside some offsets has ordered spans, each within its parent's. *)
Lemma inside_well_spanned (n : node) :
  forall lo hi, inside lo hi n -> well_spanned n = true.
Proof.
  induction n as [n IH] using node_children_ind; intros lo hi Hin.
  inversion Hin as [? ? s e ? Hsp Hlo Hse Hhi Hch]; subst.
  rewrite well_spanned_children, Hsp.
  apply andb_true_iff; split; [apply andb_true_iff; split|].
  - unfold span_ordered, pos_leb; simpl.
    destruct (Nat.leb_spec (s + 1) (e + 1)); [reflexivity|lia].
  - apply forallb_forall; intros c Hc.
    rewrite Forall_forall in Hch. specialize (Hch c Hc).
    inversion Hch as [? ? s' e' ? Hsp' ? ? ? _]; subst. rewrite Hsp'.
    unfold span_within, pos_leb; simpl.
    destruct (Nat.leb_spec (s + 1) (s' + 1)); [|lia].
    destruct (Nat.leb_spec (e' + 1) (e + 1)); [reflexivity|lia].
  - apply forallb_forall; intros c Hc.
    rewrite Forall_forall in IH, Hch. eapply IH; eauto.
Qed.

Lemma next_loop_stop (fuel : nat) :
  forall lx lx',
    next_loop fuel lx = Stop lx' ->
    code lx' = code lx /\
    length (rest lx') <= length (rest lx) /\
    (lx' = lx \/ position lx' = length (code lx) - length (rest lx')).
Proof.
  induction fuel as [|fuel IH]; intros lx lx'; cbn [next_loop];
    destruct (scan_rules TOKENS lx) as [[[k g] lx1]|] eqn:Hs;
    try (destruct (length (rest lx) =? 0); try discriminate;
         intros Heq; injection Heq as <-; auto);
    destruct (kind_beq k _IGNORE); try discriminate.
  intros Hn; apply IH in Hn; destruct Hn as (Hc & Hl & Hp).
  pose proof (scan_rules_shrinks _ _ _ Hs).
  apply scan_rules_progress in Hs; [|exact TOKENS_nonempty].
  destruct Hs as (Hc1 & _ & _ & Hp1).
  rewrite Hc1 in Hc, Hp. repeat split; [assumption|lia|].
  right. destruct Hp as [->|Hp]; assumption.
Qed.

Lemma bind_inv {A B} (c : M A) (k : A -> M B) (self : Parser) (b : B)
      (self'' : Parser) :
  bind c k self = Done b self'' ->
  exists a self', c self = Done a self' /\ k a self' = Done b self''.
Proof.
  unfold bind; destruct (c self) as [a self'| |]; try discriminate; eauto.
Qed.

Section OneLine.

Variable src : list ascii.
Hypothesis one_line_src : ~ In newline src.

(** On a text of one line the resolver returns line 1 and the column of the
    offset. *)
Lemma linecol_one_line (lx : Lexer) :
  lexer_inv src lx -> linecol lx = at_pos 1 (position lx + 1).
Proof.
  intros [Hc Hp]; unfold linecol, linecol_from_position.
  rewrite Hc, split_lines_one by assumption; simpl.
  destruct (Nat.leb_spec (position lx) (length src)); [|lia].
  unfold at_pos; f_equal; lia.
Qed.

Lemma Lexer_next_inv (lx : Lexer) :
  lexer_inv src lx ->
  match Lexer_next lx with
  | Yield _ lx' | Stop lx' => lexer_inv src lx' /\ position lx <= position lx'
  | _ => True
  end.
Proof.
  intros [Hc Hp].
  destruct (Lexer_next lx) as [t lx'|lx'| |] eqn:Hn; [| |exact I|exact I].
  - apply Lexer_next_yield in Hn; destruct Hn as (Hc' & Hl & Hp' & _).
    unfold lexer_inv. rewrite Hc', Hp', Hc, Hp. repeat split; lia.
  - unfold Lexer_next in Hn.
    destruct (length (rest lx) =? 0).
    + injection Hn as <-. unfold lexer_inv; auto.
    + apply next_loop_stop in Hn; destruct Hn as (Hc' & Hl & [->|Hp']).
      * unfold lexer_inv; auto.
      * unfold lexer_inv. rewrite Hc', Hp', Hc, Hp. repeat split; lia.
Qed.

Lemma adv_get_position :
  advances src get_position (fun lo hi p => hi = lo /\ p = at_pos 1 (lo + 1)).
Proof.
  intros self a self' HI Heq; unfold get_position in Heq.
  injection Heq as <- <-.
  split; [assumption|split; [lia|split; [reflexivity|]]].
  now apply linecol_one_line.
Qed.

Lemma adv_ret {A} (x : A) :
  advances src (ret x) (fun lo hi a => hi = lo /\ a = x).
Proof. intros self a self' HI Heq; injection Heq as <- <-; auto. Qed.

Lemma adv_lift {A} (r : result A) :
  advances src (lift r) (fun lo hi _ => hi = lo).
Proof.
  intros self a self' HI; unfold lift; destruct r; [|discriminate].
  intros Heq; injection Heq as <- <-; auto.
Qed.

Lemma adv_is_next (tok : kind) :
  advances src (is_next tok) (fun lo hi _ => hi = lo).
Proof. intros self a self' HI Heq; injection Heq as <- <-; auto. Qed.

Lemma adv_eat (tok : kind) : advances src (eat tok) (fun _ _ _ => True).
Proof.
  intros self a self' HI; unfold eat.
  destruct (kind_beq (fst (token self)) tok).
  - pose proof (Lexer_next_inv _ HI) as Hn.
    destruct (Lexer_next (lexer self)); try discriminate;
      intros Heq; injection Heq as <- <-; unfold off; simpl; tauto.
  - destruct (kind_beq (fst (token self)) _EOI); discriminate.
Qed.

Lemma adv_accept (tok : kind) : advances src (accept tok) (fun _ _ _ => True).
Proof.
  intros self a self' HI; unfold accept; intros Heq.
  apply bind_inv in Heq; destruct Heq as (b & s1 & Hb & Heq).
  injection Hb as <- <-.
  destruct (kind_beq (fst (token self)) tok).
  - apply bind_inv in Heq; destruct Heq as (v & s2 & He & Heq).
    injection Heq as <- <-. now apply (adv_eat tok self v s2).
  - injection Heq as <- <-. auto.
Qed.

Ltac forward Hc :=
  match type of Hc with
  | ?c ?self = Done ?a ?s1 =>
      match goal with
      | HI : lexer_inv _ (lexer self) |- _ =>
          first
            [ destruct (adv_get_position self a s1 HI Hc) as (? & ? & ? & ?);
              subst a
            | destruct (adv_eat _ self a s1 HI Hc) as (? & ? & _)
            | destruct (adv_accept _ self a s1 HI Hc) as (? & ? & _)
            | destruct (adv_is_next _ self a s1 HI Hc) as (? & ? & ?)
            | destruct (adv_lift _ self a s1 HI Hc) as (? & ? & ?)
            | match goal with
              | IH : advances _ c _ |- _ =>
                  destruct (IH self a s1 HI Hc) as (? & ? & ?)
              | IH : forall x, advances _ _ _ |- _ =>
                  destruct (IH _ self a s1 HI Hc) as (? & ? & ?)
              end ]
      end
  end; clear Hc.

Ltac chain :=
  repeat match goal with
    | HI : lexer_inv _ (lexer ?self), H : bind _ _ ?self = Done _ _ |- _ =>
        let H1 := fresh "Hstep" in
        apply bind_inv in H; destruct H as (? & ? & H1 & H);
        try forward H1; cbv beta in H
    | HI : lexer_inv _ (lexer ?self),
      H : (if ?b then _ else _) ?self = Done _ _ |- _ => destruct b
    | HI : lexer_inv _ (lexer ?self),
      H : match is_ident ?l with _ => _ end ?self = Done _ _ |- _ =>
        destruct (is_ident l)
    | H : ret _ _ = Done _ _ |- _ => unfold ret in H; injection H as <- <-
    | H : syntax_error _ _ = Done _ _ |- _ => discriminate H
    | H : syntax_error_at _ _ _ = Done _ _ |- _ =>
        unfold syntax_error_at in H;
        destruct (get_line _ _) in H; discriminate H
    | H : starve _ = Done _ _ |- _ => discriminate H
    | HI : lexer_inv _ (lexer ?self), H : _ ?self = Done _ _ |- _ => forward H
    end.

Ltac solve_children :=
  repeat first
    [ apply Forall_nil
    | apply Forall_cons; [eapply inside_weaken; [eassumption|lia|lia]|]
    | apply Forall_app; split
    | eapply inside_all_weaken; [eassumption|lia|lia] ].

Ltac solve_inside :=
  first
    [ eapply inside_weaken; [eassumption|lia|lia]
    | eapply inside_node;
      [reflexivity|lia|lia|lia|simpl children; solve_children] ].

Ltac finish :=
  split; [assumption|split; [lia|first [solve_inside|solve_children]]].

Ltac loop_step lo0 :=
  match goal with
  | Hloop : comma_loop_spans _ _,
    Hc : comma_loop _ ?args ?s = Done _ _,
    HI : lexer_inv _ (lexer ?s) |- _ =>
      let Hlo := fresh in
      let Hall := fresh in
      assert (lo0 <= off s) as Hlo by lia;
      assert (Forall (inside lo0 (off s)) args) as Hall by solve_children;
      destruct (Hloop args lo0 s _ _ HI Hlo Hall Hc) as (? & ? & ?)
  end.

Lemma descent_spans_all (n : nat) : descent_spans src n.
Proof.
  induction n as [|n IH].
  - unfold descent_spans, comma_loop_spans; repeat split; intros;
      try (intros ? ? ? ? ?); discriminate.
  - destruct IH
      as (? & ? & ? & ? & ? & ? & ? & ? & ? & ? & ? & ? & ? & ? & ? & ?
          & ? & Hloop).
    unfold descent_spans, all_inside in *.
    repeat match goal with |- _ /\ _ => split end.
    18: {
      intros args lo0 self a self' HI Hlo Hargs Hc.
      cbn [comma_loop] in Hc. chain.
      - loop_step lo0. split; [assumption|split; [lia|assumption]].
      - split; [assumption|split; [lia|solve_children]].
    }
    17: {
      intros close self a self' HI Hc.
      cbn [parse_comma_list] in Hc. chain; [finish|].
      loop_step (off self). split; [assumption|split; [lia|assumption]].
    }
    all: intros; intros self a self' HI Hc;
      cbn [parse_function parse_codeblock gen_statements parse_statement
           parse_declaration parse_assignment parse_expression parse_expr_add
           parse_expr_sub parse_expr_mult parse_expr_div parse_expr_power
           parse_function_call parse_expr_unary parse_parent_expr parse_value]
        in Hc;
      chain; finish.
Qed.

Lemma gen_functions_spans (n : nat) : advances src (gen_functions n) all_inside.
Proof.
  induction n as [|n IH]; [intros self a self' HI Hc; discriminate|].
  destruct (descent_spans_all n) as (? & _).
  unfold all_inside in *.
  intros self a self' HI Hc; cbn [gen_functions] in Hc.
  chain; finish.
Qed.

Lemma parse_spans (n : nat) : advances src (parse n) inside.
Proof.
  pose proof (gen_functions_spans n) as Hgen. unfold all_inside in Hgen.
  intros self a self' HI Hc; unfold parse in Hc.
  chain; finish.
Qed.

End OneLine.

(** X18.  On a text of one line, where the resolver is right, the parser
    builds ordered and nested spans: every node of a tree it returns has its
    start before its end, within the span of its parent. *)
Lemma one_line_spans (n : nat) (src : list ascii) (root : node) :
  ~ In newline src -> parse_text n src = Tree root -> well_spanned root = true.
Proof.
  intros Hsrc; unfold parse_text, run, Parser_init.
  destruct (parse n _) as [a self'| |] eqn:Hp; try discriminate.
  intros Heq; injection Heq as ->.
  apply (parse_spans src Hsrc) in Hp.
  - destruct Hp as (_ & _ & Hin). eapply inside_well_spanned; eauto.
  - unfold lexer_inv; simpl; split; [reflexivity|lia].
Qed.

(** ** The parser on the inputs the specification singles out *)

(** C2.  [1 - 2 - 3] parses to the right-nested tree
    [BinaryOp(Value 1, SUB, BinaryOp(Value 2, SUB, Value 3))]: as a program
    it is that expression alone in a block of its own inside the root block,
    and [parse_expression] on a parser started at the first token returns that
    expression. *)
Theorem subtraction_nests_to_the_right (k : nat) :
  let e :=
    BinaryOperationNode (spanning 1 2 1 10)
      (ValueNode (spanning 1 2 1 4) 1)
      SUB
      (BinaryOperationNode (spanning 1 6 1 10)
         (ValueNode (spanning 1 6 1 8) 2)
         SUB
         (ValueNode (spanning 1 10 1 10) 3)) in
  parse_text (20 + k) (text "1 - 2 - 3") =
    Tree (CodeBlockNode (spanning 1 1 1 10)
            [CodeBlockNode (spanning 1 2 1 10) [e]])
  /\ exists self',
      run (parse_expression (20 + k)) (Parser_init (text "1 - 2 - 3") true) =
        Done e self'.
Proof.
  intros e; split.
  - rewrite parse_text_more_fuel; [vm_compute; reflexivity|].
    vm_compute; discriminate.
  - eexists.
    apply (descent_more_fuel (parse_expression 20));
      [apply parse_expression_mono; lia|].
    vm_compute; reflexivity.
Qed.

(** C5 (as the code has it).  Parsing [1 = 2] raises the error "Syntax error"
    on line 1; its position is the lexer's consumption offset when the check
    fails.  By then [=] has been accepted and the token after it read, so the
    position is column 6, the end of the text, not the column of [=]. *)
Theorem assignment_to_literal_error (k : nat) :
  parse_text (20 + k) (text "1 = 2") =
    Error (mkParseError (text "Syntax error") (text "1 = 2") (at_pos 1 6))
  /\ at_pos 1 6 = linecol_from_position (Lexer_init (text "1 = 2"))
                                        (length (text "1 = 2")).
Proof.
  split; [|vm_compute; reflexivity].
  rewrite parse_text_more_fuel; [vm_compute; reflexivity|].
  vm_compute; discriminate.
Qed.

(** C5 as stated fails: [=] is the character at offset 2, which is column 3 of
    line 1 (and the token ends at column 4), while the error raised for
    [1 = 2] carries column 6. *)
Lemma assignment_error_not_at_equals :
  nth_error (text "1 = 2") 2 = Some "="%char
  /\ char_linecol (text "1 = 2") 2 = at_pos 1 3
  /\ char_linecol (text "1 = 2") 3 = at_pos 1 4
  /\ ~ (exists w p,
           parse_text 20 (text "1 = 2") = Error (ParseError w p)
           /\ (p = at_pos 1 3 \/ p = at_pos 1 4)).
Proof.
  repeat split; try (vm_compute; reflexivity).
  intros (w & p & Hp & Hpos).
  vm_compute in Hp. injection Hp as _ <-.
  destruct Hpos; discriminate.
Qed.

(** C6 (as the code has it).  Parsing [fun f() return 1] raises the error
    "Code block need braces" on line 1; its position is the lexer's
    consumption offset when the brace is found missing.  By then the token
    after [)], which is [return], has been read, so the position is column
    15, right after [return]. *)
Theorem function_body_needs_braces_error (k : nat) :
  parse_text (20 + k) (text "fun f() return 1") =
    Error (mkParseError (text "Code block need braces")
                        (text "fun f() return 1") (at_pos 1 15))
  /\ at_pos 1 15 = linecol_from_position (Lexer_init (text "fun f() return 1"))
                                         (length (text "fun f() return"))
  /\ fst (tokenize (text "fun f() return 1")) =
       [ (KW_FUN, text "fun"); (IDENT, text "f"); (LEFT_PARENT, text "(");
         (RIGHT_PARENT, text ")"); (KW_RETURN, text "return");
         (NUMBER, text "1") ].
Proof.
  split; [|split; vm_compute; reflexivity].
  rewrite parse_text_more_fuel; [vm_compute; reflexivity|].
  vm_compute; discriminate.
Qed.

(** C6 as stated fails: [)] is the character at offset 6, so the position
    right after it is offset 7, column 8 of line 1, while the error raised
    for [fun f() return 1] carries column 15. *)
Lemma braces_error_not_after_paren :
  nth_error (text "fun f() return 1") 6 = Some ")"%char
  /\ char_linecol (text "fun f() return 1") 7 = at_pos 1 8
  /\ ~ (exists w,
           parse_text 20 (text "fun f() return 1") =
             Error (ParseError w (at_pos 1 8))).
Proof.
  repeat split; try (vm_compute; reflexivity).
  intros (w & Hp). vm_compute in Hp. discriminate.
Qed.

(** C9 (where the code departs).  The text made of two empty lines and the
    line [a b] parses, and the block and the identifier node for [a] get a
    span that starts at column 4 of line 3 and ends at column 3 of line 3:
    the end lies before the start. *)
Theorem span_end_before_start (k : nat) :
  let src := newline :: newline :: text "a b" in
  let root :=
    CodeBlockNode (spanning 1 1 3 3)
      [ CodeBlockNode (spanning 3 4 3 3) [IdentNode (spanning 3 4 3 3) (text "a")];
        CodeBlockNode (spanning 3 3 3 3) [IdentNode (spanning 3 3 3 3) (text "b")] ] in
  parse_text (20 + k) src = Tree root
  /\ span_ordered (spanning 3 4 3 3) = false
  /\ well_spanned root = false.
Proof.
  intros src root; split; [|split; reflexivity].
  rewrite parse_text_more_fuel; [vm_compute; reflexivity|].
  vm_compute; discriminate.
Qed.

(** ** Traversal *)

Lemma visit_each_record (ns log : list node) :
  visit_each record ns log = log ++ ns.
Proof.
  unfold visit_each; revert log.
  induction ns as [|n ns IH]; intros log; simpl.
  - now rewrite app_nil_r.
  - rewrite IH; unfold record. now rewrite <- app_assoc.
Qed.

(** Whatever the callback, [visit] runs it on the children the node holds, in
    field order, and then on the node; an assignment is the exception, its
    class has no [visit] of its own. *)
Lemma visit_children {St : Type} (visitor : node -> St -> St) (n : node) (s : St) :
  is_assignment n = false ->
  visit visitor n s = visitor n (visit_each visitor (children n) s).
Proof.
  destruct n; simpl; intros Hn; try reflexivity; try discriminate.
  unfold visit_each; now rewrite fold_left_app.
Qed.

(** An assignment holds an expression, but its class inherits
    [BaseNode.visit]: the callback reaches the assignment alone. *)
Lemma visit_assignment (sp : Span) (x : list ascii) (e : node) (log : list node) :
  visit record (AssignmentNode sp x e) log = log ++ [AssignmentNode sp x e].
Proof. reflexivity. Qed.

(** C1 (as the code has it).  On every node but an assignment, [visit] with a
    recording callback records the node's direct children, in the order of
    the node's fields, and then the node itself, each once; on a node without
    children it records the node alone.  The callback is not carried into the
    children's own subtrees. *)
Theorem visit_records_children_then_self (n : node) (log : list node) :
  is_assignment n = false ->
  visit record n log = log ++ children n ++ [n].
Proof.
  intros Hn. rewrite visit_children by assumption.
  rewrite visit_each_record. unfold record. now rewrite <- app_assoc.
Qed.

Lemma visit_records_children_then_self_witness :
  is_assignment
    (BinaryOperationNode (spanning 1 2 1 6)
       (ValueNode (spanning 1 2 1 4) 1) ADD (ValueNode (spanning 1 6 1 6) 2))
  = false
  /\ visit record
       (BinaryOperationNode (spanning 1 2 1 6)
          (ValueNode (spanning 1 2 1 4) 1) ADD (ValueNode (spanning 1 6 1 6) 2))
       []
     = [] ++ children
               (BinaryOperationNode (spanning 1 2 1 6)
                  (ValueNode (spanning 1 2 1 4) 1) ADD
                  (ValueNode (spanning 1 6 1 6) 2))
          ++ [BinaryOperationNode (spanning 1 2 1 6)
                (ValueNode (spanning 1 2 1 4) 1) ADD
                (ValueNode (spanning 1 6 1 6) 2)].
Proof.
  split; [reflexivity|].
  apply visit_records_children_then_self; reflexivity.
Defined.

(** C1 as stated fails: the tree the parser builds for [var x] has three
    nodes, the root block, the block of the statement and the declaration;
    [visit] on the root records the inner block and the root, and never the
    declaration. *)
Lemma visit_misses_deeper_nodes :
  parse_text 20 (text "var x") =
    Tree (CodeBlockNode (spanning 1 1 1 6)
            [CodeBlockNode (spanning 1 4 1 6)
               [DeclarationNode (spanning 1 4 1 6) (text "x")]])
  /\ visit record
       (CodeBlockNode (spanning 1 1 1 6)
          [CodeBlockNode (spanning 1 4 1 6)
             [DeclarationNode (spanning 1 4 1 6) (text "x")]]) []
     = [ CodeBlockNode (spanning 1 4 1 6)
           [DeclarationNode (spanning 1 4 1 6) (text "x")];
         CodeBlockNode (spanning 1 1 1 6)
           [CodeBlockNode (spanning 1 4 1 6)
              [DeclarationNode (spanning 1 4 1 6) (text "x")]] ]
  /\ postorder
       (CodeBlockNode (spanning 1 1 1 6)
          [CodeBlockNode (spanning 1 4 1 6)
             [DeclarationNode (spanning 1 4 1 6) (text "x")]])
     = [ DeclarationNode (spanning 1 4 1 6) (text "x");
         CodeBlockNode (spanning 1 4 1 6)
           [DeclarationNode (spanning 1 4 1 6) (text "x")];
         CodeBlockNode (spanning 1 1 1 6)
           [CodeBlockNode (spanning 1 4 1 6)
              [DeclarationNode (spanning 1 4 1 6) (text "x")]] ]
  /\ visit record
       (CodeBlockNode (spanning 1 1 1 6)
          [CodeBlockNode (spanning 1 4 1 6)
             [DeclarationNode (spanning 1 4 1 6) (text "x")]]) []
     <> postorder
          (CodeBlockNode (spanning 1 1 1 6)
             [CodeBlockNode (spanning 1 4 1 6)
                [DeclarationNode (spanning 1 4 1 6) (text "x")]]).
Proof.
  split; [vm_compute; reflexivity|].
  split; [reflexivity|]. split; [reflexivity|].
  intros Heq. apply (f_equal (@length node)) in Heq. discriminate.
Qed.

(** * Further properties of the code *)

(** ** What a step of the lexer consumes *)

Lemma in_all_ascii (a : ascii) : In a all_ascii.
Proof.
  unfold all_ascii. rewrite <- (ascii_nat_embedding a).
  apply in_map, in_seq. pose proof (nat_ascii_bounded a). lia.
Qed.

Lemma class_within_sound (p q : ascii -> bool) (a : ascii) :
  class_within p q = true -> p a = true -> q a = true.
Proof.
  unfold class_within; rewrite forallb_forall; intros Hall Hp.
  specialize (Hall a (in_all_ascii a)). now rewrite Hp in Hall.
Qed.

Lemma iterate_chars (q : ascii -> bool) (step : list ascii -> list nat) :
  (forall s e, In e (step s) -> forallb q (firstn e s) = true) ->
  forall fuel s e, In e (iterate step fuel s) -> forallb q (firstn e s) = true.
Proof.
  intros Hstep; induction fuel as [|fuel IH]; intros s e Hin;
    cbn [iterate] in Hin.
  - destruct Hin as [<-|[]]; reflexivity.
  - apply in_app_or in Hin; destruct Hin as [Hin|[<-|[]]]; [|reflexivity].
    apply in_flat_map in Hin; destruct Hin as (e1 & He1 & Hin).
    destruct (e1 =? 0); [destruct Hin|].
    apply in_map_iff in Hin; destruct Hin as (e2 & <- & He2).
    rewrite firstn_plus, forallb_app.
    now rewrite (Hstep _ _ He1), (IH _ _ He2).
Qed.

(** The characters a match consumes are characters of the pattern. *)
Lemma ends_chars (q : ascii -> bool) (r : regex) :
  chars_in q r = true ->
  forall s e, In e (ends r s) -> forallb q (firstn e s) = true.
Proof.
  induction r as [|c|p|r1 IH1 r2 IH2|r1 IH1 r2 IH2|r1 IH1|r1 IH1|r1 IH1];
    cbn [chars_in]; intros Hq s e Hin; cbn [ends] in Hin.
  - destruct Hin as [<-|[]]; reflexivity.
  - destruct s as [|a s]; [destruct Hin|].
    destruct (Ascii.eqb_spec a c) as [->|_]; [|destruct Hin].
    destruct Hin as [<-|[]]. simpl. now rewrite Hq.
  - destruct s as [|a s]; [destruct Hin|].
    destruct (p a) eqn:Hp; [|destruct Hin].
    destruct Hin as [<-|[]]. simpl.
    now rewrite (class_within_sound p q a Hq Hp).
  - apply andb_true_iff in Hq; destruct Hq as [Hq1 Hq2].
    apply in_flat_map in Hin; destruct Hin as (e1 & He1 & Hin).
    apply in_map_iff in Hin; destruct Hin as (e2 & <- & He2).
    rewrite firstn_plus, forallb_app.
    now rewrite (IH1 Hq1 _ _ He1), (IH2 Hq2 _ _ He2).
  - apply andb_true_iff in Hq; destruct Hq as [Hq1 Hq2].
    apply in_app_or in Hin; destruct Hin; auto.
  - apply in_app_or in Hin; destruct Hin as [Hin|[<-|[]]]; auto.
  - eapply iterate_chars; eauto.
  - apply in_flat_map in Hin; destruct Hin as (e1 & He1 & Hin).
    apply in_map_iff in Hin; destruct Hin as (e2 & <- & He2).
    rewrite firstn_plus, forallb_app.
    rewrite (IH1 Hq _ _ He1).
    now rewrite (iterate_chars q _ (IH1 Hq) _ _ _ He2).
Qed.

(** A match starts with a character the pattern can start with. *)
Lemma ends_first (q : ascii -> bool) (r : regex) :
  first_in q r = true ->
  forall s e, In e (ends r s) -> exists c t, s = c :: t /\ q c = true.
Proof.
  induction r as [|c|p|r1 IH1 r2 IH2|r1 IH1 r2 IH2|r1 IH1|r1 IH1|r1 IH1];
    cbn [first_in]; intros Hq s e Hin; try discriminate; cbn [ends] in Hin.
  - destruct s as [|a s]; [destruct Hin|].
    destruct (Ascii.eqb_spec a c) as [->|_]; [eauto|destruct Hin].
  - destruct s as [|a s]; [destruct Hin|].
    destruct (p a) eqn:Hp; [|destruct Hin].
    exists a, s; split; [reflexivity|]. eapply class_within_sound; eauto.
  - apply in_flat_map in Hin; destruct Hin as (e1 & He1 & _); eauto.
  - apply andb_true_iff in Hq; destruct Hq as [Hq1 Hq2].
    apply in_app_or in Hin; destruct Hin; eauto.
  - apply in_flat_map in Hin; destruct Hin as (e1 & He1 & _); eauto.
Qed.

(** Each rule of the table consumes characters of its alphabet only and
    starts with a character of its start set. *)
Lemma TOKENS_alphabet :
  forallb (fun kv => chars_in (rule_alphabet (fst kv)) (snd kv)
                     && first_in (rule_start (fst kv)) (snd kv)) TOKENS = true.
Proof. vm_compute. reflexivity. Qed.

(** What the rule loop returns comes from a rule of the table that matches. *)
Lemma scan_rules_found (rules : list (kind * regex)) (self : Lexer)
      (k : kind) (g : list ascii) (self' : Lexer) :
  scan_rules rules self = Some ((k, g), self') ->
  exists v e,
    In (k, v) rules /\ In e (ends v (rest self)) /\ g = firstn e (rest self).
Proof.
  induction rules as [|[k1 v1] rules IH]; simpl; [discriminate|].
  unfold re_match. destruct (ends v1 (rest self)) as [|e es] eqn:He; simpl.
  - intros Hs; destruct (IH Hs) as (v & e & Hin & He' & Hg); eauto 6.
  - intros Hs; injection Hs as <- <- _.
    exists v1, e; rewrite He; simpl; auto.
Qed.

Lemma scan_rules_none (rules : list (kind * regex)) (self : Lexer) :
  scan_rules rules self = None ->
  forall k v, In (k, v) rules -> ends v (rest self) = [].
Proof.
  induction rules as [|[k1 v1] rules IH]; simpl; intros Hs k v Hin;
    [destruct Hin|].
  unfold re_match in Hs. destruct (ends v1 (rest self)) eqn:He; simpl in Hs;
    [|discriminate].
  destruct Hin as [Heq|Hin]; [injection Heq as <- <-; assumption|eauto].
Qed.

(** A token is made of characters that are not blank, and what is skipped is
    made of blanks. *)
Lemma scan_rules_alphabet (self : Lexer) (k : kind) (g : list ascii)
      (self' : Lexer) :
  scan_rules TOKENS self = Some ((k, g), self') ->
  forallb (rule_alphabet k) g = true.
Proof.
  intros Hs; destruct (scan_rules_found _ _ _ _ _ Hs) as (v & e & Hin & He & ->).
  pose proof TOKENS_alphabet as Hall. rewrite forallb_forall in Hall.
  specialize (Hall _ Hin); simpl in Hall.
  apply andb_true_iff in Hall; destruct Hall as [Hc _].
  eapply ends_chars; eauto.
Qed.

(** Where a token can start, or a blank stands, some rule matches. *)
Lemma scan_rules_some (self : Lexer) (c : ascii) (t : list ascii) :
  rest self = c :: t ->
  starts_token c || blank c = true ->
  scan_rules TOKENS self <> None.
Proof.
  intros Hr Hc Hs.
  pose proof (scan_rules_none _ _ Hs) as Hnone. rewrite Hr in Hnone.
  assert (forall k v, In (k, v) TOKENS -> ends v (c :: t) <> [] -> False)
    as Hno by (intros k v Hin Hne; apply Hne; eauto).
  unfold starts_token in Hc.
  apply orb_true_iff in Hc; destruct Hc as [Hc|Hc];
    [apply orb_true_iff in Hc; destruct Hc as [Hc|Hc];
     [apply orb_true_iff in Hc; destruct Hc as [Hc|Hc]|]|].
  - apply (Hno IDENT (Seq (Class ident_start) (Star (Class ident_char))));
      [unfold TOKENS; simpl; tauto|].
    rewrite ends_Seq. apply flat_map_nonempty.
    + cbn [ends]. rewrite Hc. discriminate.
    + intros e; apply map_nonempty, iterate_nonempty.
  - apply (Hno NUMBER number_literal); [unfold TOKENS; simpl; tauto|].
    unfold number_literal; cbn [ends].
    pose proof (decimal_literal_matches c t Hc) as Hne.
    intros Heq; apply app_eq_nil in Heq; tauto.
  - unfold operator_char in Hc; simpl in Hc.
    repeat (apply orb_true_iff in Hc; destruct Hc as [Hc|Hc]);
      try discriminate; apply Ascii.eqb_eq in Hc; subst c;
      match goal with
      | |- False =>
          first
            [ apply (Hno BIN_MULT (Lit "*")); [unfold TOKENS; simpl; tauto|discriminate]
            | apply (Hno BIN_DIV (Lit "/")); [unfold TOKENS; simpl; tauto|discriminate]
            | apply (Hno BIN_ADD (Lit "+")); [unfold TOKENS; simpl; tauto|discriminate]
            | apply (Hno BIN_SUB (Lit "-")); [unfold TOKENS; simpl; tauto|discriminate]
            | apply (Hno EQUALS (Lit "=")); [unfold TOKENS; simpl; tauto|discriminate]
            | apply (Hno LESSTHAN (Lit "<")); [unfold TOKENS; simpl; tauto|discriminate]
            | apply (Hno GREATERTHAN (Lit ">")); [unfold TOKENS; simpl; tauto|discriminate]
            | apply (Hno LEFT_PARENT (Lit "(")); [unfold TOKENS; simpl; tauto|discriminate]
            | apply (Hno RIGHT_PARENT (Lit ")")); [unfold TOKENS; simpl; tauto|discriminate]
            | apply (Hno LEFT_BRACE (Lit "{")); [unfold TOKENS; simpl; tauto|discriminate]
            | apply (Hno RIGHT_BRACE (Lit "}")); [unfold TOKENS; simpl; tauto|discriminate]
            | apply (Hno COMMA (Lit ",")); [unfold TOKENS; simpl; tauto|discriminate] ]
      end.
  - apply (Hno _IGNORE (Plus (Class blank))); [unfold TOKENS; simpl; tauto|].
    rewrite ends_Plus. apply flat_map_nonempty.
    + cbn [ends]. rewrite Hc. discriminate.
    + intros e; apply map_nonempty, iterate_nonempty.
Qed.

(** Where no rule matches, the input is at its end or at a character that
    neither is blank nor can start a token. *)
Lemma scan_rules_stuck (self : Lexer) :
  scan_rules TOKENS self = None ->
  rest self = [] \/
  exists c t, rest self = c :: t /\ starts_token c = false /\ blank c = false.
Proof.
  intros Hs. destruct (rest self) as [|c t] eqn:Hr; [now left|right].
  exists c, t; split; [reflexivity|].
  destruct (starts_token c || blank c) eqn:Hc.
  - exfalso; eapply scan_rules_some; eauto.
  - now apply orb_false_iff in Hc.
Qed.

(** And conversely: at such a character no rule matches. *)
Lemma scan_rules_stuck_at (self : Lexer) (c : ascii) (t : list ascii) :
  rest self = c :: t -> starts_token c = false -> blank c = false ->
  scan_rules TOKENS self = None.
Proof.
  intros Hr Hst Hbl.
  destruct (scan_rules TOKENS self) as [[[k g] self']|] eqn:Hs; [|reflexivity].
  destruct (scan_rules_found _ _ _ _ _ Hs) as (v & e & Hin & He & _).
  pose proof TOKENS_alphabet as Hall. rewrite forallb_forall in Hall.
  specialize (Hall _ Hin); simpl in Hall.
  apply andb_true_iff in Hall; destruct Hall as [_ Hf].
  destruct (ends_first _ _ Hf _ _ He) as (c' & t' & Heq & Hq).
  rewrite Hr in Heq; injection Heq as <- <-.
  unfold rule_start in Hq. destruct (kind_beq k _IGNORE); congruence.
Qed.

Lemma blank_prefix_unique (ws1 ws2 : list ascii) (c1 c2 : ascii)
      (t1 t2 : list ascii) :
  forallb blank ws1 = true -> forallb blank ws2 = true ->
  blank c1 = false -> blank c2 = false ->
  ws1 ++ c1 :: t1 = ws2 ++ c2 :: t2 ->
  ws1 = ws2 /\ c1 = c2 /\ t1 = t2.
Proof.
  revert ws2; induction ws1 as [|a ws1 IH]; intros [|b ws2] H1 H2 Hc1 Hc2 Heq;
    simpl in *.
  - injection Heq as -> ->; auto.
  - injection Heq as -> _. apply andb_true_iff in H2; destruct H2; congruence.
  - injection Heq as -> _. apply andb_true_iff in H1; destruct H1; congruence.
  - injection Heq as -> Heq.
    apply andb_true_iff in H1; destruct H1 as [_ H1].
    apply andb_true_iff in H2; destruct H2 as [_ H2].
    destruct (IH ws2 H1 H2 Hc1 Hc2 Heq) as (-> & -> & ->); auto.
Qed.

Lemma filter_blank (ws : list ascii) :
  forallb blank ws = true -> filter solid ws = [].
Proof.
  induction ws as [|a ws IH]; simpl; [reflexivity|].
  intros H; apply andb_true_iff in H; destruct H as [Ha H].
  unfold solid at 1. rewrite Ha; simpl; auto.
Qed.

Lemma filter_solid (g : list ascii) :
  forallb solid g = true -> filter solid g = g.
Proof.
  induction g as [|a g IH]; simpl; [reflexivity|].
  intros H; apply andb_true_iff in H; destruct H as [Ha H].
  rewrite Ha, IH by assumption. reflexivity.
Qed.

(** The anatomy of the blank-skipping loop: what it consumes before it
    returns a token, ends the iteration or fails. *)
Lemma next_loop_parts (fuel : nat) :
  forall self,
    match next_loop fuel self with
    | Yield (k, g) self' =>
        exists ws c g',
          rest self = ws ++ g ++ rest self' /\ forallb blank ws = true
          /\ g = c :: g' /\ starts_token c = true /\ forallb solid g = true
    | Stop self' => forallb blank (rest self) = true /\ rest self' = []
    | Fail e =>
        exists ws c t sk,
          rest self = ws ++ c :: t /\ forallb blank ws = true
          /\ starts_token c = false /\ blank c = false
          /\ e = parse_error_here sk (text "Cannot lex input code")
          /\ code sk = code self
          /\ (ws = [] /\ sk = self \/
              position sk = length (code self) - length (c :: t))
    | Starved => True
    end.
Proof.
  induction fuel as [|fuel IH]; intros self; cbn [next_loop];
    destruct (scan_rules TOKENS self) as [[[k g] s1]|] eqn:Hs.
  1, 3:
    pose proof (scan_rules_alphabet _ _ _ _ Hs) as Halpha;
    destruct (scan_rules_found _ _ _ _ _ Hs) as (v & e & Hin & He & Hg);
    pose proof (scan_rules_progress _ _ TOKENS_nonempty _ _ Hs)
      as (Hcode & Hrest & Hlen & Hpos); simpl in Hrest, Hlen;
    unfold rule_alphabet in Halpha;
    destruct (kind_beq k _IGNORE) eqn:Hk.
  - exact I.
  - pose proof TOKENS_alphabet as Hall. rewrite forallb_forall in Hall.
    specialize (Hall _ Hin); simpl in Hall.
    apply andb_true_iff in Hall; destruct Hall as [_ Hf].
    destruct (ends_first _ _ Hf _ _ He) as (c & t & Heq & Hq).
    unfold rule_start in Hq; rewrite Hk in Hq.
    destruct g as [|c' g']; [simpl in Hlen; lia|].
    rewrite Heq in Hg. destruct e; [discriminate|]. injection Hg as -> ->.
    exists [], c, (firstn e t); simpl; rewrite Hrest; auto.
  - specialize (IH s1). destruct (next_loop fuel s1) as [[k' g2] s2|s2|e'|].
    + destruct IH as (ws & c & g' & Hr & Hws & Hg2 & Hc & Hsol).
      exists (g ++ ws), c, g'. rewrite Hrest, Hr, <- app_assoc, forallb_app.
      rewrite Halpha, Hws; auto.
    + destruct IH as (Hbl & Hnil). rewrite Hrest, forallb_app, Halpha, Hbl; auto.
    + destruct IH as (ws & c & t & sk & Hr & Hws & Hc & Hb & -> & Hsk & Hp).
      exists (g ++ ws), c, t, sk.
      rewrite Hrest, Hr, <- app_assoc, forallb_app, Halpha, Hws.
      repeat split; auto; [congruence|].
      right. destruct Hp as [[-> ->]|Hp]; [rewrite Hpos, Hr; reflexivity|].
      rewrite Hp, Hcode. reflexivity.
    + exact I.
  - pose proof TOKENS_alphabet as Hall. rewrite forallb_forall in Hall.
    specialize (Hall _ Hin); simpl in Hall.
    apply andb_true_iff in Hall; destruct Hall as [_ Hf].
    destruct (ends_first _ _ Hf _ _ He) as (c & t & Heq & Hq).
    unfold rule_start in Hq; rewrite Hk in Hq.
    destruct g as [|c' g']; [simpl in Hlen; lia|].
    rewrite Heq in Hg. destruct e; [discriminate|]. injection Hg as -> ->.
    exists [], c, (firstn e t); simpl; rewrite Hrest; auto.
  - destruct (Nat.eqb_spec (length (rest self)) 0) as [Hz|Hz].
    + apply length_zero_iff_nil in Hz. rewrite Hz; auto.
    + destruct (scan_rules_stuck _ Hs) as [Hnil|(c & t & Hr & Hc & Hb)];
        [rewrite Hnil in Hz; simpl in Hz; lia|].
      exists [], c, t, self; simpl; auto 10.
  - destruct (Nat.eqb_spec (length (rest self)) 0) as [Hz|Hz].
    + apply length_zero_iff_nil in Hz. rewrite Hz; auto.
    + destruct (scan_rules_stuck _ Hs) as [Hnil|(c & t & Hr & Hc & Hb)];
        [rewrite Hnil in Hz; simpl in Hz; lia|].
      exists [], c, t, self; simpl; auto 10.
Qed.

Lemma Lexer_next_parts (self : Lexer) :
  match Lexer_next self with
  | Yield (k, g) self' =>
      exists ws c g',
        rest self = ws ++ g ++ rest self' /\ forallb blank ws = true
        /\ g = c :: g' /\ starts_token c = true /\ forallb solid g = true
  | Stop self' => forallb blank (rest self) = true /\ rest self' = []
  | Fail e =>
      exists ws c t sk,
        rest self = ws ++ c :: t /\ forallb blank ws = true
        /\ starts_token c = false /\ blank c = false
        /\ e = parse_error_here sk (text "Cannot lex input code")
        /\ code sk = code self
        /\ (ws = [] /\ sk = self \/
            position sk = length (code self) - length (c :: t))
  | Starved => True
  end.
Proof.
  unfold Lexer_next.
  destruct (Nat.eqb_spec (length (rest self)) 0) as [Hz|Hz];
    [|apply next_loop_parts].
  apply length_zero_iff_nil in Hz. rewrite Hz; auto.
Qed.

Lemma starts_token_solid (c : ascii) : starts_token c = true -> blank c = false.
Proof.
  intros Hc. destruct (blank c) eqn:Hb; [|reflexivity].
  unfold blank in Hb.
  repeat (apply orb_true_iff in Hb; destruct Hb as [Hb|Hb]);
    apply Ascii.eqb_eq in Hb; subst c; discriminate.
Qed.

Lemma parse_error_here_ext (a b : Lexer) (m : list ascii) :
  code a = code b -> position a = position b ->
  parse_error_here a m = parse_error_here b m.
Proof.
  intros Hc Hp. unfold parse_error_here, cur_line, get_line, linecol,
    linecol_from_position. now rewrite Hc, Hp.
Qed.

(** The anatomy of a whole iteration over a lexer that is at its
    consumption offset. *)
Lemma tokens_from_parts (src : list ascii) (fuel : nat) :
  forall self,
    lexer_inv src self ->
    match snd (tokens_from fuel self) with
    | Exhausted =>
        concat (map snd (fst (tokens_from fuel self))) = filter solid (rest self)
    | Failed e =>
        exists consumed c t,
          rest self = consumed ++ c :: t
          /\ concat (map snd (fst (tokens_from fuel self))) = filter solid consumed
          /\ starts_token c = false /\ blank c = false
          /\ e = parse_error_here
                   (mkLexer src (c :: t) (length src - length (c :: t)))
                   (text "Cannot lex input code")
    | Unfinished => True
    end.
Proof.
  induction fuel as [|fuel IH]; intros self HI; cbn [tokens_from]; [exact I|].
  pose proof (Lexer_next_parts self) as Hparts.
  pose proof (Lexer_next_inv src self HI) as Hinv.
  destruct (Lexer_next self) as [[k g] s1|s1|e|]; [| | |exact I].
  - destruct Hparts as (ws & c & g' & Hr & Hws & Hg & Hc & Hsol).
    destruct Hinv as [HI1 _]. specialize (IH s1 HI1).
    destruct (tokens_from fuel s1) as [ts en]; simpl in IH |- *.
    destruct en as [|e|]; [| |exact I].
    + rewrite IH, Hr, !filter_app, (filter_blank ws Hws), (filter_solid g Hsol).
      reflexivity.
    + destruct IH as (consumed & c' & t & Hr' & Hts & Hc' & Hb' & ->).
      exists (ws ++ g ++ consumed), c', t.
      rewrite Hr, Hr', Hts, <- !app_assoc, !filter_app.
      rewrite (filter_blank ws Hws), (filter_solid g Hsol). auto 10.
  - simpl. destruct Hparts as [Hbl _]. now rewrite (filter_blank _ Hbl).
  - simpl. destruct Hparts as (ws & c & t & sk & Hr & Hws & Hc & Hb & -> & Hsk & Hp).
    destruct HI as [Hcode Hpos].
    exists ws, c, t; rewrite (filter_blank ws Hws).
    repeat split; auto.
    apply parse_error_here_ext; cbn [code position]; [congruence|].
    destruct Hp as [[-> ->]|Hp]; [|now rewrite Hp, Hcode].
    rewrite Hpos, Hr. reflexivity.
Qed.

Lemma lexer_inv_init (src : list ascii) : lexer_inv src (Lexer_init src).
Proof. unfold lexer_inv; simpl; split; [reflexivity|lia]. Qed.

(** X1.  A token that [__next__] returns was found after a run of blanks: the
    rest of the input was that run, then the lexeme, then what is left.  The
    lexeme is not empty and holds no blank, the text is kept, and the
    position becomes the consumption offset. *)
Theorem token_anatomy (self : Lexer) (k : kind) (g : list ascii) (self' : Lexer) :
  Lexer_next self = Yield (k, g) self' ->
  exists ws,
    rest self = ws ++ g ++ rest self'
    /\ forallb blank ws = true
    /\ g <> [] /\ forallb solid g = true
    /\ code self' = code self
    /\ position self' = length (code self) - length (rest self').
Proof.
  intros Hn. pose proof (Lexer_next_parts self) as Hparts. rewrite Hn in Hparts.
  destruct Hparts as (ws & c & g' & Hr & Hws & Hg & _ & Hsol).
  apply Lexer_next_yield in Hn. destruct Hn as (Hc & _ & Hp & _).
  exists ws. repeat split; auto. rewrite Hg; discriminate.
Qed.

Lemma token_anatomy_witness :
  Lexer_next (Lexer_init (text "  ab c")) =
    Yield (IDENT, text "ab") (mkLexer (text "  ab c") (text " c") 4)
  /\ exists ws,
      rest (Lexer_init (text "  ab c")) =
        ws ++ text "ab" ++ rest (mkLexer (text "  ab c") (text " c") 4)
      /\ forallb blank ws = true
      /\ text "ab" <> [] /\ forallb solid (text "ab") = true
      /\ code (mkLexer (text "  ab c") (text " c") 4) =
           code (Lexer_init (text "  ab c"))
      /\ position (mkLexer (text "  ab c") (text " c") 4) =
           length (code (Lexer_init (text "  ab c")))
           - length (rest (mkLexer (text "  ab c") (text " c") 4)).
Proof.
  split; [reflexivity|].
  apply (token_anatomy _ IDENT); reflexivity.
Defined.

(** X2.  [__next__] raises [StopIteration] exactly when nothing but blanks is
    left of the input (nothing at all included). *)
Theorem iteration_ends_iff_only_blanks_left (self : Lexer) :
  (exists self', Lexer_next self = Stop self') <->
  forallb blank (rest self) = true.
Proof.
  pose proof (Lexer_next_parts self) as Hparts.
  pose proof (Lexer_next_total self) as Htot.
  split.
  - intros (self' & Hn). rewrite Hn in Hparts. tauto.
  - intros Hbl.
    destruct (Lexer_next self) as [[k g] s1|s1|e|]; [|eauto| |contradiction].
    + destruct Hparts as (ws & c & g' & Hr & _ & -> & Hc & _).
      apply starts_token_solid in Hc.
      rewrite Hr, !forallb_app in Hbl. simpl in Hbl. rewrite Hc in Hbl.
      rewrite andb_false_r in Hbl. discriminate.
    + destruct Hparts as (ws & c & t & sk & Hr & _ & _ & Hb & _).
      rewrite Hr, forallb_app in Hbl. simpl in Hbl. rewrite Hb in Hbl.
      rewrite andb_false_r in Hbl. discriminate.
Qed.

(** X3.  [__next__] raises a Lex error exactly when, past the blanks, the
    next character is one with which no token starts: not a letter, an
    underscore, a digit or one of the operator and punctuation characters. *)
Theorem lex_error_iff_no_token_starts (self : Lexer) :
  (exists e, Lexer_next self = Fail e) <->
  (exists ws c t,
      rest self = ws ++ c :: t /\ forallb blank ws = true
      /\ starts_token c = false /\ blank c = false).
Proof.
  pose proof (Lexer_next_parts self) as Hparts.
  pose proof (Lexer_next_total self) as Htot.
  split.
  - intros (e & Hn). rewrite Hn in Hparts.
    destruct Hparts as (ws & c & t & sk & ? & ? & ? & ? & _). eauto 8.
  - intros (ws & c & t & Hr & Hws & Hc & Hb).
    destruct (Lexer_next self) as [[k g] s1|s1|e|]; [| |eauto|contradiction].
    + destruct Hparts as (ws' & c' & g' & Hr' & Hws' & -> & Hc' & _).
      rewrite Hr in Hr'. simpl in Hr'.
      apply blank_prefix_unique in Hr'; auto using starts_token_solid.
      destruct Hr' as (_ & -> & _). congruence.
    + destruct Hparts as [Hbl _].
      rewrite Hr, forallb_app in Hbl. simpl in Hbl. rewrite Hb in Hbl.
      rewrite andb_false_r in Hbl. discriminate.
Qed.

(** X4.  When tokenizing a text fails, the text is some consumed part followed
    by a character with which no token starts; the tokens returned before are
    the consumed part without its blanks, and the error is the diagnostic
    "Cannot lex input code" raised with the lexer at the offset of that
    character. *)
Theorem tokenize_failure_report (src : list ascii) (e : exn) :
  snd (tokenize src) = Failed e ->
  exists consumed c t,
    src = consumed ++ c :: t
    /\ starts_token c = false /\ blank c = false
    /\ concat (map snd (fst (tokenize src))) = filter solid consumed
    /\ e = parse_error_here (mkLexer src (c :: t) (length consumed))
                            (text "Cannot lex input code").
Proof.
  intros Hf. unfold tokenize in *.
  pose proof (tokens_from_parts src (S (length src)) _ (lexer_inv_init src))
    as Hparts.
  rewrite Hf in Hparts.
  destruct Hparts as (consumed & c & t & Hr & Hts & Hc & Hb & ->).
  simpl in Hr. exists consumed, c, t. repeat split; auto.
  f_equal. f_equal. rewrite Hr at 1. rewrite length_app. lia.
Qed.

Lemma tokenize_failure_report_witness :
  snd (tokenize (text "a $")) =
    Failed (parse_error_here (mkLexer (text "a $") (text "$") 2)
                             (text "Cannot lex input code"))
  /\ exists consumed c t,
      text "a $" = consumed ++ c :: t
      /\ starts_token c = false /\ blank c = false
      /\ concat (map snd (fst (tokenize (text "a $")))) = filter solid consumed
      /\ parse_error_here (mkLexer (text "a $") (text "$") 2)
                          (text "Cannot lex input code")
         = parse_error_here (mkLexer (text "a $") (c :: t) (length consumed))
                            (text "Cannot lex input code").
Proof.
  split; [reflexivity|].
  apply tokenize_failure_report; reflexivity.
Defined.

Lemma tokenize_failure_report_aux (src : list ascii) (e : exn) :
  snd (tokenize src) = Failed e ->
  exists consumed c t,
    src = consumed ++ c :: t /\ starts_token c = false /\ blank c = false.
Proof.
  intros Hf. unfold tokenize in *.
  pose proof (tokens_from_parts src (S (length src)) _ (lexer_inv_init src))
    as Hparts.
  rewrite Hf in Hparts.
  destruct Hparts as (consumed & c & t & Hr & _ & Hc & Hb & _).
  simpl in Hr. eauto 6.
Qed.

(** X5.  A text made of blanks and of characters with which a token starts
    only is always tokenized to its end: no Lex error is raised on it. *)
Theorem tokenize_accepts_token_alphabet (src : list ascii) :
  forallb (fun c => starts_token c || blank c) src = true ->
  snd (tokenize src) = Exhausted.
Proof.
  intros Hall.
  destruct (snd (tokenize src)) as [|e|] eqn:Hend; [reflexivity| |].
  - apply tokenize_failure_report_aux in Hend.
    destruct Hend as (consumed & c & t & Hr & Hc & Hb).
    rewrite Hr, forallb_app in Hall. simpl in Hall.
    rewrite Hc, Hb in Hall. simpl in Hall.
    rewrite andb_false_r in Hall. discriminate.
  - now apply tokenize_complete in Hend.
Qed.

Lemma tokenize_accepts_token_alphabet_witness :
  forallb (fun c => starts_token c || blank c) (text "x = (y1 + 2) * f(z)") = true
  /\ snd (tokenize (text "x = (y1 + 2) * f(z)")) = Exhausted.
Proof.
  split; [reflexivity|].
  apply tokenize_accepts_token_alphabet; reflexivity.
Defined.

(** X6.  When a text is tokenized to its end, the lexemes of its tokens, put
    together in order, are the text without its blanks: nothing else is lost
    or added. *)
Theorem tokenize_keeps_all_but_blanks (src : list ascii) :
  snd (tokenize src) = Exhausted ->
  concat (map snd (fst (tokenize src))) = filter solid src.
Proof.
  intros Hend. unfold tokenize in *.
  pose proof (tokens_from_parts src (S (length src)) _ (lexer_inv_init src))
    as Hparts.
  now rewrite Hend in Hparts.
Qed.

Lemma tokenize_keeps_all_but_blanks_witness :
  snd (tokenize (text "while x1 { y = 3.25 }")) = Exhausted
  /\ concat (map snd (fst (tokenize (text "while x1 { y = 3.25 }")))) =
       filter solid (text "while x1 { y = 3.25 }").
Proof.
  split; [reflexivity|].
  apply tokenize_keeps_all_but_blanks; reflexivity.
Defined.

(** Every token of an iteration was found by the rule loop. *)
Lemma next_loop_scanned (fuel : nat) :
  forall self t self',
    next_loop fuel self = Yield t self' ->
    exists s0, scan_rules TOKENS s0 = Some (t, self').
Proof.
  induction fuel as [|fuel IH]; intros self t self'; cbn [next_loop];
    destruct (scan_rules TOKENS self) as [[[k g] s1]|] eqn:Hs;
    try (destruct (length (rest self) =? 0); discriminate);
    destruct (kind_beq k _IGNORE); try discriminate; eauto;
    intros Heq; injection Heq as <- <-; eauto.
Qed.

Lemma tokens_from_scanned (fuel : nat) :
  forall self t,
    In t (fst (tokens_from fuel self)) ->
    exists s0 s1, scan_rules TOKENS s0 = Some (t, s1).
Proof.
  induction fuel as [|fuel IH]; intros self t; cbn [tokens_from]; [intros []|].
  destruct (Lexer_next self) as [t1 s1| | |] eqn:Hn;
    try (simpl; intros []; fail).
  specialize (IH s1 t).
  destruct (tokens_from fuel s1) as [ts en]; cbn [fst In] in *.
  intros [<-|Hin]; [|now apply IH].
  unfold Lexer_next in Hn. destruct (length (rest self) =? 0); [discriminate|].
  apply next_loop_scanned in Hn. destruct Hn as (s0 & Hs). eauto.
Qed.

Lemma scan_rules_ident (self : Lexer) (g : list ascii) (self' : Lexer) :
  scan_rules TOKENS self = Some ((IDENT, g), self') ->
  forall k w t, In (k, w) keywords -> g <> text w ++ t.
Proof.
  intros Hs k w t Hin Hg.
  pose proof (scan_rules_progress _ _ TOKENS_nonempty _ _ Hs) as (_ & Hr & _).
  simpl in Hr. rewrite Hg, <- app_assoc in Hr.
  revert Hs. unfold TOKENS; cbn [scan_rules]. rewrite Hr.
  simpl in Hin.
  repeat (destruct Hin as [Hin|Hin];
          [injection Hin as <- <-; vm_compute; discriminate|]).
  destruct Hin.
Qed.

(** X7.  No identifier token starts with the letters of a reserved word:
    whatever the text, the lexeme of an IDENT token never begins with [var],
    [fun], [while], [return], [extern] or [not]. *)
Theorem identifier_never_starts_with_keyword (src g : list ascii) (k : kind)
        (w : string) (t : list ascii) :
  In (IDENT, g) (fst (tokenize src)) ->
  In (k, w) keywords ->
  g <> text w ++ t.
Proof.
  intros Hin Hk. apply tokens_from_scanned in Hin.
  destruct Hin as (s0 & s1 & Hs). eapply scan_rules_ident; eauto.
Qed.

Lemma identifier_never_starts_with_keyword_witness :
  In (IDENT, text "iable") (fst (tokenize (text "variable")))
  /\ In (KW_VAR, "var"%string) keywords
  /\ text "iable" <> text "var" ++ text "iable".
Proof.
  assert (In (IDENT, text "iable") (fst (tokenize (text "variable")))) as Hin
      by (right; left; reflexivity).
  assert (In (KW_VAR, "var"%string) keywords) as Hk by (left; reflexivity).
  split; [exact Hin|split; [exact Hk|]].
  exact (identifier_never_starts_with_keyword _ _ _ _ _ Hin Hk).
Defined.

(** X8.  The lexeme of every NUMBER token is a decimal numeral, digits with
    an optional fraction, which [float] converts: building a [ValueNode] from
    a NUMBER token never fails. *)
Theorem number_tokens_convert (src g : list ascii) :
  In (NUMBER, g) (fst (tokenize src)) ->
  exists q, float_of g = Ok q.
Proof.
  intros Hin. apply tokens_from_scanned in Hin.
  destruct Hin as (s0 & s1 & Hs). eapply scan_rules_number; eauto.
Qed.

Lemma number_tokens_convert_witness :
  In (NUMBER, text "3.25") (fst (tokenize (text "y = 3.25")))
  /\ exists q, float_of (text "3.25") = Ok q.
Proof.
  assert (In (NUMBER, text "3.25") (fst (tokenize (text "y = 3.25")))) as Hin
      by (right; right; left; reflexivity).
  split; [exact Hin|].
  exact (number_tokens_convert _ _ Hin).
Defined.

(** ** Source lines and resolved positions *)

Lemma get_line_loop_nth (lines : list (list ascii)) :
  forall i lineno,
    get_line_loop lines i lineno =
    if i + 1 <=? lineno then nth_error lines (lineno - (i + 1)) else None.
Proof.
  induction lines as [|l lines IH]; intros i lineno; cbn [get_line_loop].
  - destruct (i + 1 <=? lineno); [|reflexivity].
    now destruct (lineno - (i + 1)).
  - destruct (Nat.eqb_spec (i + 1) lineno) as [<-|Hne].
    + rewrite Nat.leb_refl, Nat.sub_diag. reflexivity.
    + rewrite IH.
      destruct (Nat.leb_spec (S i + 1) lineno), (Nat.leb_spec (i + 1) lineno);
        try lia; [|reflexivity].
      replace (lineno - (i + 1)) with (S (lineno - (S i + 1))) by lia.
      reflexivity.
Qed.

Lemma get_line_bounds_aux (self : Lexer) (lineno : nat) :
  match get_line self lineno with
  | Ok l =>
      1 <= lineno <= length (split_lines (code self))
      /\ nth_error (split_lines (code self)) (lineno - 1) = Some l
  | Raise e => lineno = 0 \/ length (split_lines (code self)) < lineno
  end.
Proof.
  unfold get_line. rewrite get_line_loop_nth. cbn [Nat.add].
  destruct (Nat.leb_spec 1 lineno) as [Hle|Hlt]; [|lia].
  destruct (nth_error (split_lines (code self)) (lineno - 1)) as [l|] eqn:Hn.
  - split; [|reflexivity].
    assert (lineno - 1 < length (split_lines (code self)))
      by (apply nth_error_Some; congruence).
    lia.
  - apply nth_error_None in Hn. lia.
Qed.

(** X9.  [get_line] returns line [N] of the text for every [N] from 1 to the
    number of lines, and raises [ValueError] for 0 and for every larger
    number. *)
Theorem get_line_bounds (self : Lexer) (lineno : nat) :
  match get_line self lineno with
  | Ok l =>
      1 <= lineno <= length (split_lines (code self))
      /\ nth_error (split_lines (code self)) (lineno - 1) = Some l
  | Raise e =>
      (lineno = 0 \/ length (split_lines (code self)) < lineno)
      /\ e = ValueError (text "Bad line number: " ++ str lineno)
  end.
Proof.
  unfold get_line. rewrite get_line_loop_nth. cbn [Nat.add].
  destruct (Nat.leb_spec 1 lineno) as [Hle|Hlt]; [|split; [lia|reflexivity]].
  destruct (nth_error (split_lines (code self)) (lineno - 1)) as [l|] eqn:Hn.
  - split; [|reflexivity].
    assert (lineno - 1 < length (split_lines (code self)))
      by (apply nth_error_Some; congruence).
    lia.
  - apply nth_error_None in Hn. split; [lia|reflexivity].
Qed.

(** X10.  Taking the source line for a diagnostic never fails: whatever the
    lexer's position, the resolver names a line of the text, and [cur_line]
    returns that line, which holds no newline. *)
Theorem cur_line_never_fails (self : Lexer) :
  exists l,
    cur_line self = Ok l
    /\ 1 <= line (linecol self) <= length (split_lines (code self))
    /\ nth_error (split_lines (code self)) (line (linecol self) - 1) = Some l
    /\ ~ In newline l.
Proof.
  destruct (cur_line_ok self) as (l & Hl & Hfree).
  exists l. split; [assumption|].
  pose proof (get_line_bounds_aux self (line (linecol self))) as Hb.
  unfold cur_line in Hl. rewrite Hl in Hb. tauto.
Qed.

Lemma concat_lines_length (lines : list (list ascii)) (l : list ascii) :
  length (concat (l :: lines)) = length l + length (concat lines).
Proof. simpl. now rewrite length_app. Qed.

(** The loop of the resolver walks the lines as if they were laid end to
    end without their newlines. *)
Lemma linecol_loop_flat (lines : list (list ascii)) :
  forall i curpos pos,
    curpos <= pos -> (lines = [] -> curpos < pos) ->
    match linecol_loop lines i curpos pos with
    | Some lc =>
        pos <= curpos + length (concat lines)
        /\ i + 1 <= line lc <= i + length lines
        /\ curpos + length (concat (firstn (line lc - (i + 1)) lines)) + col lc
           = pos + 1
        /\ col lc <= length (nth (line lc - (i + 1)) lines []) + 1
    | None => curpos + length (concat lines) < pos
    end.
Proof.
  induction lines as [|l lines IH]; intros i curpos pos Hle Hne;
    cbn [linecol_loop].
  - specialize (Hne eq_refl). simpl. lia.
  - rewrite concat_lines_length.
    destruct (Nat.leb_spec pos (curpos + length l)) as [Hin|Hout].
    + cbn [line col length]. rewrite Nat.sub_diag. simpl. lia.
    + specialize (IH (S i) (curpos + length l) pos ltac:(lia) ltac:(lia)).
      destruct (linecol_loop lines (S i) (curpos + length l) pos) as [lc|];
        [|lia].
      destruct IH as (H1 & H2 & H3 & H4). cbn [length].
      replace (line lc - (i + 1)) with (S (line lc - (S i + 1))) by lia.
      cbn [firstn nth]. rewrite concat_lines_length.
      repeat split; lia.
Qed.

(** X11.  What the resolver computes on the whole text: it takes the offset
    as an offset into the lines laid end to end without their newlines.  For
    an offset [p] up to the number of characters that are not newlines it
    returns the line [l] and column [c] such that the lengths of the lines
    before [l], plus [c - 1], is [p], with [c] at most one past the end of the
    line; for a larger offset it returns the number of lines and the length
    of the last line. *)
Theorem resolver_ignores_newlines (self : Lexer) (p : nat) :
  let lines := split_lines (code self) in
  let lc := linecol_from_position self p in
  if p <=? length (concat lines) then
    1 <= line lc <= length lines
    /\ length (concat (firstn (line lc - 1) lines)) + col lc = p + 1
    /\ col lc <= length (nth (line lc - 1) lines []) + 1
  else
    lc = {| line := length lines; col := length (last lines []) |}.
Proof.
  intros lines lc. unfold lc, linecol_from_position. fold lines.
  assert (lines = [] -> 0 < p) as Hne.
  { intros Heq. pose proof (split_lines_nonempty (code self)) as Hl.
    fold lines in Hl. rewrite Heq in Hl. simpl in Hl. lia. }
  pose proof (linecol_loop_flat lines 0 0 p ltac:(lia) Hne) as Hloop.
  destruct (linecol_loop lines 0 0 p) as [lc'|].
  - destruct Hloop as (H1 & H2 & H3 & H4). cbn [Nat.add] in *.
    destruct (Nat.leb_spec p (length (concat lines))); [|lia].
    repeat split; lia.
  - destruct (Nat.leb_spec p (length (concat lines))); [lia|reflexivity].
Qed.

(** ** What the parser returns and what it raises *)

Lemma parse_error_here_is_parse_error (self : Lexer) (m : list ascii) :
  is_parse_error (parse_error_here self m).
Proof.
  destruct (parse_error_here_shape self m) as (l & _ & ->). exact I.
Qed.

Lemma Lexer_next_raises (self : Lexer) (e : exn) :
  Lexer_next self = Fail e -> is_parse_error e.
Proof.
  intros Hn. pose proof (Lexer_next_parts self) as Hparts.
  rewrite Hn in Hparts.
  destruct Hparts as (ws & c & t & sk & _ & _ & _ & _ & -> & _).
  apply parse_error_here_is_parse_error.
Qed.

(** No rule of the table bears one of the two kinds the parser makes up. *)
Lemma scan_rules_kind (self : Lexer) (k : kind) (g : list ascii) (self' : Lexer) :
  scan_rules TOKENS self = Some ((k, g), self') -> k <> _EOI /\ k <> _SOI.
Proof.
  intros Hs. destruct (scan_rules_found _ _ _ _ _ Hs) as (v & e & Hin & _).
  unfold TOKENS in Hin; simpl in Hin.
  repeat (destruct Hin as [Hin|Hin];
          [injection Hin as <- _; split; discriminate|]).
  destruct Hin.
Qed.

Lemma scan_rules_unop (self : Lexer) (g : list ascii) (self' : Lexer) :
  scan_rules TOKENS self = Some ((UNOP, g), self') -> g = text "not".
Proof.
  unfold TOKENS; cbn [scan_rules].
  destruct (re_match (Lit "not") (rest self)) as [e|] eqn:Hm.
  - intros Heq; injection Heq as <- _.
    unfold re_match in Hm; cbn [Lit ends] in Hm.
    destruct (rest self) as [|a [|b [|c r]]]; simpl in Hm;
      repeat match type of Hm with
             | context [Ascii.eqb ?x ?y] =>
                 destruct (Ascii.eqb_spec x y); simpl in Hm; subst
             end; try discriminate.
    injection Hm as <-. reflexivity.
  - repeat match goal with
           | |- context [match re_match ?v ?s with _ => _ end] =>
               destruct (re_match v s)
           end; discriminate.
Qed.

(** The lexer hands the parser tokens that keep [token_ok]. *)
Lemma Lexer_next_token_ok (src : list ascii) (self : Parser) :
  code (lexer self) = src ->
  match Lexer_next (lexer self) with
  | Yield t lx => parser_inv src {| lexer := lx; token := t |}
  | Stop lx => parser_inv src {| lexer := lx; token := (_EOI, []) |}
  | _ => True
  end.
Proof.
  intros Hc.
  pose proof (Lexer_next_parts (lexer self)) as Hparts.
  destruct (Lexer_next (lexer self)) as [[k g] lx|lx| |] eqn:Hn; try exact I.
  - pose proof (Lexer_next_yield _ _ _ Hn) as (Hcode & _).
    unfold Lexer_next in Hn.
    destruct (length (rest (lexer self)) =? 0); [discriminate|].
    destruct (next_loop_scanned _ _ _ _ Hn) as (s0 & Hs).
    split; [simpl; congruence|]. unfold token_ok; simpl.
    destruct k; try exact I.
    + eapply scan_rules_unop; eauto.
    + eapply scan_rules_number; eauto.
    + apply scan_rules_kind in Hs. destruct Hs as [Hs _]. now elim Hs.
  - destruct Hparts as [_ Hnil].
    split; [|unfold token_ok; simpl; auto].
    simpl. unfold Lexer_next in Hn.
    destruct (length (rest (lexer self)) =? 0);
      [injection Hn as <-; assumption|].
    apply next_loop_stop in Hn. destruct Hn as (Hcode & _). congruence.
Qed.

Section Soundness.

Variable src : list ascii.

Lemma sound_at_bind {A B} (c : M A) (k : A -> M B)
      (Q1 : A -> Parser -> Prop) (Q2 : B -> Parser -> Prop) (self : Parser) :
  sound_at src c Q1 self ->
  (forall a s1, parser_inv src s1 -> Q1 a s1 -> sound_at src (k a) Q2 s1) ->
  sound_at src (bind c k) Q2 self.
Proof.
  unfold sound_at, bind; intros Hc Hk.
  destruct (c self) as [a s1|e|]; [|assumption|exact I].
  destruct Hc as [HI HQ]. exact (Hk a s1 HI HQ).
Qed.

Lemma sound_at_weaken {A} (c : M A) (Q Q' : A -> Parser -> Prop)
      (self : Parser) :
  sound_at src c Q self ->
  (forall a s, Q a s -> Q' a s) ->
  sound_at src c Q' self.
Proof.
  unfold sound_at; intros Hc HQ.
  destruct (c self); [|assumption|exact I]. destruct Hc; auto.
Qed.

Lemma sound_ret {A} (a : A) (Q : A -> Parser -> Prop) (self : Parser) :
  parser_inv src self -> Q a self -> sound_at src (ret a) Q self.
Proof. unfold sound_at, ret; auto. Qed.

Lemma sound_starve {A} (Q : A -> Parser -> Prop) (self : Parser) :
  sound_at src starve Q self.
Proof. exact I. Qed.

Lemma sound_get_position (self : Parser) :
  parser_inv src self ->
  sound_at src get_position
           (fun p s => s = self /\ p = linecol (lexer self)
                       /\ 1 <= line p <= length (split_lines src))
           self.
Proof.
  intros HI; unfold sound_at, get_position.
  split; [assumption|]. split; [reflexivity|split; [reflexivity|]].
  destruct HI as [<- _]. apply linecol_line_range.
Qed.

Lemma sound_is_next (tok : kind) (self : Parser) :
  parser_inv src self ->
  sound_at src (is_next tok)
           (fun b s => s = self /\ b = kind_beq (fst (token self)) tok) self.
Proof. intros HI; unfold sound_at; simpl; auto. Qed.

Lemma sound_syntax_error {A} (m : list ascii) (Q : A -> Parser -> Prop)
      (self : Parser) :
  sound_at src (syntax_error m) Q self.
Proof. apply parse_error_here_is_parse_error. Qed.

Lemma sound_syntax_error_at {A} (m : list ascii) (pos : LineCol)
      (Q : A -> Parser -> Prop) (self : Parser) :
  parser_inv src self ->
  1 <= line pos <= length (split_lines src) ->
  sound_at src (syntax_error_at m pos) Q self.
Proof.
  intros [Hc _] Hr; unfold sound_at, syntax_error_at.
  pose proof (get_line_bounds_aux (lexer self) (line pos)) as Hb.
  rewrite Hc in Hb.
  destruct (get_line (lexer self) (line pos)); [exact I|lia].
Qed.

Lemma kind_beq_eq (a b : kind) : kind_beq a b = true -> a = b.
Proof. apply internal_kind_dec_bl. Qed.

Lemma sound_eat (tok : kind) (self : Parser) :
  parser_inv src self ->
  sound_at src (eat tok) (fun v s => eat_post tok v s) self.
Proof.
  intros [Hc Htok]; unfold sound_at, eat.
  destruct (kind_beq (fst (token self)) tok) eqn:Hk.
  - apply kind_beq_eq in Hk.
    pose proof (Lexer_next_token_ok src self Hc) as Hnext.
    pose proof (Lexer_next_total (lexer self)) as Htot.
    destruct (Lexer_next (lexer self)) as [t lx|lx|e|] eqn:Hn;
      [| | |contradiction].
    + split; [assumption|].
      unfold token_ok in Htok. rewrite Hk in Htok.
      unfold eat_post. destruct tok; try exact I; try assumption.
      destruct Htok as [_ Hnil]. unfold Lexer_next in Hn.
      rewrite Hnil in Hn. discriminate.
    + split; [assumption|].
      unfold token_ok in Htok. rewrite Hk in Htok.
      unfold eat_post. destruct tok; try exact I; try assumption.
      destruct Hnext as [_ Hok]. unfold token_ok in Hok; simpl in Hok.
      simpl. tauto.
    + eapply Lexer_next_raises; eauto.
  - destruct (kind_beq (fst (token self)) _EOI);
      apply parse_error_here_is_parse_error.
Qed.

Lemma sound_accept (tok : kind) (self : Parser) :
  parser_inv src self ->
  sound_at src (accept tok) (fun _ _ => True) self.
Proof.
  intros HI; unfold accept.
  eapply sound_at_bind; [now apply sound_is_next|].
  intros b s1 HI1 _. destruct b; [|now apply sound_ret].
  eapply sound_at_bind; [now apply sound_eat|].
  intros v s2 HI2 _. now apply sound_ret.
Qed.

Lemma sound_bind_lift {A B} (r : result A) (a : A) (k : A -> M B)
      (Q : B -> Parser -> Prop) (self : Parser) :
  r = Ok a -> sound_at src (k a) Q self ->
  sound_at src (bind (lift r) k) Q self.
Proof. intros -> Hk. exact Hk. Qed.

Lemma expression_is_statement (n : node) :
  is_expression n = true -> is_statement n = true.
Proof. destruct n; simpl; auto; discriminate. Qed.

Lemma block_is_toplevel (n : node) : is_block n = true -> is_toplevel n = true.
Proof. destruct n; simpl; auto; discriminate. Qed.

Lemma is_ident_expr (n : node) (x : list ascii) :
  is_ident n = Some x -> exists sp, n = IdentNode sp x.
Proof. destruct n; simpl; try discriminate. intros Heq; injection Heq as ->; eauto. Qed.

Ltac sound_prim :=
  first
    [ apply sound_get_position; assumption
    | apply sound_eat; assumption
    | apply sound_accept; assumption
    | apply sound_is_next; assumption
    | match goal with
      | IH : forall self, parser_inv _ self -> sound_at _ ?c _ self
        |- sound_at _ ?c _ _ => apply IH; assumption
      | IH : forall x self, parser_inv _ self -> sound_at _ (?f x) _ self
        |- sound_at _ (?f _) _ _ => apply IH; assumption
      end ].

Ltac sound_goal :=
  simpl; unfold all_expressions in *;
  repeat match goal with
         | H : _ /\ _ |- _ => destruct H
         | H : is_ident _ = Some _ |- _ =>
             apply is_ident_expr in H; destruct H as (? & ->)
         end;
  subst; simpl;
  repeat (apply andb_true_intro; split);
  auto using expression_is_statement, block_is_toplevel.

Ltac sound_step :=
  repeat match goal with
    | |- sound_at _ (bind (lift (float_of _)) _) _ _ =>
        match goal with
        | H : eat_post NUMBER _ _ |- _ =>
            let q := fresh "q" in
            let Hq := fresh "Hq" in
            destruct H as [q Hq]; eapply sound_bind_lift; [exact Hq|]
        end
    | |- sound_at _ (bind (lift (UnaryOperation_of _)) _) _ _ =>
        match goal with
        | H : eat_post UNOP _ _ |- _ =>
            unfold eat_post in H; rewrite H;
            eapply sound_bind_lift; [reflexivity|]
        end
    | |- sound_at _ (bind _ _) _ _ =>
        eapply sound_at_bind; [sound_prim|intros ? ? ? ?; cbv beta in *]
    | |- sound_at _ (if ?b then _ else _) _ _ => destruct b
    | |- sound_at _ (match is_ident ?l with _ => _ end) _ _ =>
        destruct (is_ident l) eqn:?
    | |- sound_at _ (ret _) _ _ => apply sound_ret; [assumption|sound_goal]
    | |- sound_at _ (syntax_error _) _ _ => apply sound_syntax_error
    | |- sound_at _ (syntax_error_at _ _) _ _ =>
        apply sound_syntax_error_at; [assumption|sound_goal; tauto]
    | |- sound_at _ starve _ _ => apply sound_starve
    | |- sound_at _ _ _ _ =>
        first [ sound_prim
              | eapply sound_at_weaken; [sound_prim|intros; sound_goal] ]
    end.

Lemma descent_sound_all (n : nat) : descent_sound src n.
Proof.
  induction n as [|n IH].
  - unfold descent_sound; repeat split; intros; exact I.
  - destruct IH
      as (? & Hblock & Hstmts & ? & Hdecl & ? & ? & ? & ? & ? & ? & ? & ? & ? & ?
          & ? & ? & Hloop).
    unfold descent_sound.
    repeat match goal with |- _ /\ _ => split end.
    2: {
      intros force self HI. cbn [parse_codeblock].
      eapply sound_at_bind; [sound_prim|intros start s1 HI1 Hs1].
      eapply sound_at_bind; [sound_prim|intros braced s2 HI2 _].
      eapply (sound_at_bind _ _ (fun l _ => forallb is_statement l = true)).
      - destruct braced; [|destruct force].
        + sound_step.
        + sound_step.
        + eapply sound_at_bind;
            [apply Hdecl; assumption|intros d s3 HI3 Hd].
          apply sound_ret; [assumption|]. simpl. now rewrite Hd.
      - intros block s3 HI3 Hb. sound_step.
    }
    17: {
      intros args self HI Hargs. cbn [comma_loop].
      eapply sound_at_bind; [sound_prim|intros more s1 HI1 _].
      destruct more; [|now apply sound_ret].
      eapply sound_at_bind; [sound_prim|intros e s2 HI2 He].
      apply Hloop; [assumption|].
      unfold all_expressions in *. rewrite forallb_app, Hargs. simpl.
      now rewrite He.
    }
    16: {
      intros close self HI. cbn [parse_comma_list].
      eapply sound_at_bind; [sound_prim|intros closing s1 HI1 _].
      destruct closing; [now apply sound_ret|].
      eapply sound_at_bind; [sound_prim|intros e s2 HI2 He].
      apply Hloop; [assumption|].
      unfold all_expressions. simpl. now rewrite He.
    }
    all: intros; intros;
      cbn [parse_function gen_statements parse_statement
           parse_declaration parse_assignment parse_expression parse_expr_add
           parse_expr_sub parse_expr_mult parse_expr_div parse_expr_power
           parse_function_call parse_expr_unary parse_parent_expr parse_value];
      sound_step.
Qed.

End Soundness.

Lemma gen_functions_sound (src : list ascii) (n : nat) :
  forall self, parser_inv src self ->
    sound_at src (gen_functions n) (fun l _ => forallb is_toplevel l = true) self.
Proof.
  induction n as [|n IH]; intros self HI; [exact I|].
  destruct (descent_sound_all src n) as (Hfun & _).
  cbn [gen_functions].
  eapply sound_at_bind; [now apply sound_is_next|intros at_end s1 HI1 _].
  destruct at_end; [now apply sound_ret|].
  eapply sound_at_bind; [now apply Hfun|intros f s2 HI2 Hf].
  eapply sound_at_bind; [now apply IH|intros fs s3 HI3 Hfs].
  apply sound_ret; [assumption|]. simpl in *. now rewrite Hf, Hfs.
Qed.

(** [parse], called in a state that keeps the invariant: the tree is a
    program, its span starts where the parser stood, and the parser ends on
    the end-of-input token with nothing left to read. *)
Lemma parse_sound (src : list ascii) (n : nat) (self : Parser) :
  parser_inv src self ->
  sound_at src (parse n)
           (fun root s =>
              is_program root = true
              /\ start (span_of root) = linecol (lexer self)
              /\ token s = (_EOI, []) /\ rest (lexer s) = [])
           self.
Proof.
  intros HI; unfold parse.
  eapply sound_at_bind; [now apply sound_get_position|].
  intros start s1 HI1 (-> & -> & _).
  eapply sound_at_bind; [now apply sound_eat|intros v s2 HI2 _].
  eapply sound_at_bind; [now apply gen_functions_sound|intros block s3 HI3 Hb].
  eapply sound_at_bind; [now apply sound_eat|intros v' s4 HI4 Heoi].
  eapply sound_at_bind; [now apply sound_get_position|].
  intros stop s5 HI5 (-> & _ & _).
  apply sound_ret; [assumption|]. simpl in *. tauto.
Qed.

Lemma parser_inv_init (src : list ascii) :
  parser_inv src {| lexer := Lexer_init src; token := (_SOI, []) |}.
Proof. split; [reflexivity|exact I]. Qed.

Lemma linecol_init (src : list ascii) : linecol (Lexer_init src) = at_pos 1 1.
Proof.
  unfold linecol, linecol_from_position; simpl.
  pose proof (split_lines_nonempty src).
  destruct (split_lines src) as [|l ls]; [simpl in *; lia|reflexivity].
Qed.

(** X12.  Whatever the text and however the parse fails, the exception that
    comes out of [Parser(text).parse()] is a [ParseError]: no [ValueError]
    from [float], from the enumeration of unary operations or from
    [get_line], and no [StopIteration], ever escapes. *)
Theorem parse_raises_only_ParseError (n : nat) (src : list ascii) (e : exn) :
  parse_text n src = Error e -> exists w p, e = ParseError w p.
Proof.
  unfold parse_text, run, Parser_init.
  pose proof (parse_sound src n _ (parser_inv_init src)) as Hs.
  unfold sound_at in Hs.
  destruct (parse n _) as [root self'|e'|]; try discriminate.
  intros Heq; injection Heq as ->.
  destruct e; try contradiction; eauto.
Qed.

Lemma parse_raises_only_ParseError_witness :
  parse_text 20 (text "x = (1 +") =
    Error (mkParseError (text "Syntax error") (text "x = (1 +") (at_pos 1 9))
  /\ exists w p,
      mkParseError (text "Syntax error") (text "x = (1 +") (at_pos 1 9) =
      ParseError w p.
Proof.
  split; [reflexivity|].
  apply (parse_raises_only_ParseError 20 (text "x = (1 +")); reflexivity.
Defined.

(** X13.  A parse that succeeds has read the whole text: the parser is left
    on the end-of-input token, and nothing, not even a blank, is left of the
    input.  Text that follows a complete program is never ignored. *)
Theorem parse_consumes_whole_text (n : nat) (src : list ascii) (root : node)
        (self' : Parser) :
  run (parse n) (Parser_init src false) = Done root self' ->
  code (lexer self') = src
  /\ rest (lexer self') = []
  /\ token self' = (_EOI, []).
Proof.
  unfold run, Parser_init.
  pose proof (parse_sound src n _ (parser_inv_init src)) as Hs.
  unfold sound_at in Hs. intros Hp. rewrite Hp in Hs.
  destruct Hs as ([Hc _] & _ & _ & Ht & Hr). auto.
Qed.

Lemma parse_consumes_whole_text_witness :
  run (parse 20) (Parser_init (text "x = 1 ") false) =
    Done (CodeBlockNode (spanning 1 1 1 7)
            [CodeBlockNode (spanning 1 2 1 7)
               [AssignmentNode (spanning 1 2 1 7) (text "x")
                  (ValueNode (spanning 1 6 1 7) 1)]])
         {| lexer := mkLexer (text "x = 1 ") [] 6; token := (_EOI, []) |}
  /\ code (lexer {| lexer := mkLexer (text "x = 1 ") [] 6;
                    token := (_EOI, []) |}) = text "x = 1 "
  /\ rest (lexer {| lexer := mkLexer (text "x = 1 ") [] 6;
                    token := (_EOI, []) |}) = []
  /\ token {| lexer := mkLexer (text "x = 1 ") [] 6; token := (_EOI, []) |}
     = (_EOI, []).
Proof.
  split; [reflexivity|].
  eapply (parse_consumes_whole_text 20); reflexivity.
Defined.

(** X14.  Every tree the parser returns follows the grammar.  The root is a
    block whose span starts at line 1, column 1 and whose entries are
    functions with a block for body, external functions, or blocks; a block
    holds statements (return, while with a block for body, declaration,
    assignment, expression); an expression is an identifier, a literal, a
    negation, a call, or a binary operation among [+ - * / **].  The parser
    never builds an AND, an OR or a PRINT node. *)
Theorem parsed_tree_follows_grammar (n : nat) (src : list ascii) (root : node) :
  parse_text n src = Tree root ->
  is_program root = true /\ start (span_of root) = at_pos 1 1.
Proof.
  unfold parse_text, run, Parser_init.
  pose proof (parse_sound src n _ (parser_inv_init src)) as Hs.
  unfold sound_at in Hs.
  destruct (parse n _) as [root' self'|e'|]; try discriminate.
  intros Heq; injection Heq as ->.
  destruct Hs as (_ & Hp & Hst & _). simpl in Hst.
  rewrite linecol_init in Hst. auto.
Qed.

Lemma parsed_tree_follows_grammar_witness :
  parse_text 20 (text "x = 1 ") =
    Tree (CodeBlockNode (spanning 1 1 1 7)
            [CodeBlockNode (spanning 1 2 1 7)
               [AssignmentNode (spanning 1 2 1 7) (text "x")
                  (ValueNode (spanning 1 6 1 7) 1)]])
  /\ is_program
       (CodeBlockNode (spanning 1 1 1 7)
          [CodeBlockNode (spanning 1 2 1 7)
             [AssignmentNode (spanning 1 2 1 7) (text "x")
                (ValueNode (spanning 1 6 1 7) 1)]]) = true
  /\ start (span_of
              (CodeBlockNode (spanning 1 1 1 7)
                 [CodeBlockNode (spanning 1 2 1 7)
                    [AssignmentNode (spanning 1 2 1 7) (text "x")
                       (ValueNode (spanning 1 6 1 7) 1)]])) = at_pos 1 1.
Proof.
  split; [reflexivity|].
  apply (parsed_tree_follows_grammar 20 (text "x = 1 ")); reflexivity.
Defined.

(** On nothing but blanks the lexer goes to the end of the text. *)
Lemma Lexer_next_blank (src : list ascii) :
  forallb blank src = true ->
  Lexer_next (Lexer_init src) = Stop (mkLexer src [] (length src)).
Proof.
  intros Hbl.
  pose proof (Lexer_next_parts (Lexer_init src)) as Hparts.
  pose proof (Lexer_next_inv src _ (lexer_inv_init src)) as Hinv.
  pose proof (Lexer_next_total (Lexer_init src)) as Htot.
  destruct (Lexer_next (Lexer_init src)) as [[k g] s1|s1|e|];
    [| | |contradiction].
  - destruct Hparts as (ws & c & g' & Hr & _ & -> & Hc & _).
    apply starts_token_solid in Hc. simpl in Hr.
    rewrite Hr, !forallb_app in Hbl. simpl in Hbl. rewrite Hc in Hbl.
    rewrite andb_false_r in Hbl. discriminate.
  - destruct Hparts as [_ Hnil]. destruct Hinv as [[Hc Hp] _].
    destruct s1 as [c r p]; simpl in *; subst. simpl.
    now rewrite Nat.sub_0_r.
  - destruct Hparts as (ws & c & t & sk & Hr & _ & _ & Hb & _). simpl in Hr.
    rewrite Hr, forallb_app in Hbl. simpl in Hbl. rewrite Hb in Hbl.
    rewrite andb_false_r in Hbl. discriminate.
Qed.

(** X15.  A text of blanks only, the empty text included, is a program
    without entries: the parser returns an empty root block that spans from
    line 1, column 1 to the resolved position of the end of the text. *)
Theorem blank_text_is_empty_program (src : list ascii) (k : nat) :
  forallb blank src = true ->
  parse_text (1 + k) src =
    Tree (CodeBlockNode
            (mkSpan (at_pos 1 1)
                    (linecol_from_position (Lexer_init src) (length src)))
            []).
Proof.
  intros Hbl. unfold parse_text, run, Parser_init, parse.
  unfold bind at 1. unfold get_position at 1. cbn [lexer].
  rewrite linecol_init.
  unfold bind at 1. unfold eat at 1. cbn [token fst snd lexer kind_beq].
  rewrite (Lexer_next_blank src Hbl).
  unfold bind at 1. cbn [Nat.add gen_functions].
  unfold bind at 1. unfold is_next, peek, bind, ret. cbn [token fst kind_beq].
  unfold eat. cbn [token fst snd lexer kind_beq].
  unfold Lexer_next. cbn [rest length Nat.eqb].
  unfold get_position. reflexivity.
Qed.

Lemma blank_text_is_empty_program_witness :
  forallb blank (text "  " ++ [newline]) = true
  /\ parse_text (1 + 0) (text "  " ++ [newline]) =
       Tree (CodeBlockNode
               (mkSpan (at_pos 1 1)
                       (linecol_from_position
                          (Lexer_init (text "  " ++ [newline]))
                          (length (text "  " ++ [newline]))))
               []).
Proof.
  split; [reflexivity|].
  apply blank_text_is_empty_program; reflexivity.
Defined.

(** ** Witnesses of earlier results *)

Lemma linecol_first_line_witness :
  2 <= length (hd [] (split_lines (text "ab" ++ newline :: text "c")))
  /\ (linecol_from_position (Lexer_init (text "ab" ++ newline :: text "c")) 2
        = at_pos 1 (2 + 1)
      /\ char_linecol (text "ab" ++ newline :: text "c") 2 = at_pos 1 (2 + 1)).
Proof.
  assert (2 <= length (hd [] (split_lines (text "ab" ++ newline :: text "c"))))
    as Hp by (simpl; lia).
  split; [exact Hp|].
  exact (linecol_first_line _ 2 Hp).
Defined.


Lemma one_line_spans_witness :
  ~ In newline (text "x = 1 ")
  /\ parse_text 20 (text "x = 1 ") =
       Tree (CodeBlockNode (spanning 1 1 1 7)
               [CodeBlockNode (spanning 1 2 1 7)
                  [AssignmentNode (spanning 1 2 1 7) (text "x")
                     (ValueNode (spanning 1 6 1 7) 1)]])
  /\ well_spanned
       (CodeBlockNode (spanning 1 1 1 7)
          [CodeBlockNode (spanning 1 2 1 7)
             [AssignmentNode (spanning 1 2 1 7) (text "x")
                (ValueNode (spanning 1 6 1 7) 1)]]) = true.
Proof.
  assert (~ In newline (text "x = 1 ")) as Hsrc
      by (apply one_line_free; reflexivity).
  split; [exact Hsrc|]. split; [reflexivity|].
  apply (one_line_spans 20 (text "x = 1 ") _ Hsrc); reflexivity.
Defined.

(** ** The parser terminates *)

Lemma fin_bind {A B} (c : M A) (k : A -> M B) (Q1 : A -> Parser -> Prop)
      (Q2 : B -> Parser -> Prop) (self : Parser) :
  finishes_at c Q1 self ->
  (forall a s1, Q1 a s1 -> finishes_at (k a) Q2 s1) ->
  finishes_at (bind c k) Q2 self.
Proof.
  intros Hc Hk. unfold finishes_at in Hc. unfold finishes_at at 1, bind.
  destruct (c self) as [a s1|e|]; [now apply Hk|exact I|contradiction].
Qed.

Lemma fin_weaken {A} (c : M A) (Q Q' : A -> Parser -> Prop) (self : Parser) :
  finishes_at c Q self -> (forall a s, Q a s -> Q' a s) ->
  finishes_at c Q' self.
Proof.
  unfold finishes_at; intros Hc HQ.
  destruct (c self); [auto|exact I|contradiction].
Qed.

Lemma fin_get_position (self : Parser) :
  finishes_at get_position (fun _ s => s = self) self.
Proof. reflexivity. Qed.

Lemma fin_is_next (tok : kind) (self : Parser) :
  finishes_at (is_next tok) (fun _ s => s = self) self.
Proof. reflexivity. Qed.

Lemma fin_lift {A} (r : result A) (self : Parser) :
  finishes_at (lift r) (fun _ s => s = self) self.
Proof. unfold finishes_at, lift; destruct r; [reflexivity|exact I]. Qed.

Lemma fin_eat_any (tok : kind) (self : Parser) :
  finishes_at (eat tok) (fun _ _ => True) self.
Proof.
  unfold finishes_at, eat.
  destruct (kind_beq (fst (token self)) tok).
  - pose proof (Lexer_next_total (lexer self)).
    destruct (Lexer_next (lexer self)); auto.
  - destruct (kind_beq (fst (token self)) _EOI); exact I.
Qed.

(** Eating a token leaves less to read. *)
Lemma fin_eat (tok : kind) (self : Parser) :
  tok <> _EOI ->
  finishes_at (eat tok) (fun _ s => remaining s < remaining self) self.
Proof.
  intros Htok; unfold finishes_at, eat.
  destruct (kind_beq (fst (token self)) tok) eqn:Hk.
  - apply kind_beq_eq in Hk.
    assert (remaining self = S (length (rest (lexer self)))) as Hrem.
    { unfold remaining. rewrite Hk. destruct tok; try reflexivity.
      now elim Htok. }
    pose proof (Lexer_next_total (lexer self)) as Htot.
    destruct (Lexer_next (lexer self)) as [[k g] lx|lx|e|] eqn:Hn;
      [| |exact I|contradiction].
    + pose proof (Lexer_next_yield _ _ _ Hn) as (_ & Hlt & _).
      rewrite Hrem. unfold remaining; simpl.
      destruct (kind_beq k _EOI); lia.
    + rewrite Hrem. unfold remaining; simpl. lia.
  - destruct (kind_beq (fst (token self)) _EOI); exact I.
Qed.

Lemma fin_accept (tok : kind) (self : Parser) :
  tok <> _EOI ->
  finishes_at (accept tok)
              (fun b s => if b then remaining s < remaining self else s = self)
              self.
Proof.
  intros Htok; unfold accept.
  eapply fin_bind; [apply fin_is_next|]. intros b s1 ->.
  destruct b; [|reflexivity].
  eapply fin_bind; [now apply fin_eat|]. intros v s2 Hlt. exact Hlt.
Qed.

(** Whatever [eat] is asked for, it comes back, and what is left is no more
    than the lookahead and the rest of the text before. *)
Lemma fin_eat_le (tok : kind) (self : Parser) :
  finishes_at (eat tok)
              (fun _ s => remaining s <= S (length (rest (lexer self)))) self.
Proof.
  unfold finishes_at, eat.
  destruct (kind_beq (fst (token self)) tok).
  - pose proof (Lexer_next_total (lexer self)) as Htot.
    destruct (Lexer_next (lexer self)) as [[k g] lx|lx|e|] eqn:Hn;
      [| |exact I|contradiction].
    + pose proof (Lexer_next_yield _ _ _ Hn) as (_ & Hlt & _).
      unfold remaining; simpl. destruct (kind_beq k _EOI); lia.
    + unfold remaining; simpl. lia.
  - destruct (kind_beq (fst (token self)) _EOI); exact I.
Qed.

Ltac fin_arith :=
  cbv beta iota in *;
  repeat match goal with
         | H : _ /\ _ |- _ => destruct H
         | H : if ?b then _ else _ |- _ => destruct b; cbv beta iota in *
         end;
  subst; try lia.

Ltac fin_prim :=
  first
    [ apply fin_get_position
    | apply fin_eat; discriminate
    | apply fin_accept; discriminate
    | apply fin_is_next
    | apply fin_lift
    | match goal with
      | IH : context [finishes_at] |- _ => solve [apply IH; fin_arith]
      end ].

Ltac fin_step :=
  repeat match goal with
    | |- finishes_at (bind _ _) _ _ =>
        eapply fin_bind; [fin_prim|intros ? ? ?; cbv beta in *]
    | |- finishes_at (if ?b then _ else _) _ _ =>
        destruct b; cbv beta iota in *
    | |- finishes_at (match is_ident ?l with _ => _ end) _ _ =>
        destruct (is_ident l)
    | |- finishes_at (ret _) _ _ => unfold finishes_at, ret; solve [fin_arith]
    | |- finishes_at (syntax_error _) _ _ => exact I
    | |- finishes_at (syntax_error_at _ _) _ _ =>
        unfold finishes_at, syntax_error_at;
        destruct (get_line _ _); exact I
    | |- finishes_at _ _ _ =>
        eapply fin_weaken; [fin_prim|intros; solve [fin_arith]]
    end.

Ltac fin_enter :=
  intros;
  match goal with
  | |- finishes_at (?f (S ?n)) _ _ => cbn [f]
  | |- finishes_at (?f (S ?n) _) _ _ => cbn [f]
  end.

Lemma descent_finishes_all (n : nat) : descent_finishes n.
Proof.
  induction n as [|n IH].
  - unfold descent_finishes, finishes_node, finishes_list;
      repeat split; intros; lia.
  - destruct IH as (Hfun & Hblock & Hstmts & Hstmt & Hdecl & Hassign & Hexpr
                    & Hadd & Hsub & Hmult & Hdiv & Hpow & Hcall & Hun & Hpar
                    & Hval & Hlist & Hloop).
    unfold finishes_node, finishes_list in *; cbv beta in *.
    unfold descent_finishes, finishes_node, finishes_list; cbv beta.
    repeat split; fin_enter; fin_step.
    eapply fin_bind with (Q1 := fun _ s => remaining s < remaining self);
      [destruct a0, force; fin_step|intros ? ? ?; fin_step].
Qed.

Lemma gen_functions_finishes (n : nat) (self : Parser) :
  20 * remaining self + 17 <= n ->
  finishes_at (gen_functions n) (fun _ _ => True) self.
Proof.
  revert self; induction n as [|n IH]; intros self Hn; [lia|].
  destruct (descent_finishes_all n) as (Hfun & _).
  unfold finishes_node in Hfun.
  cbn [gen_functions].
  eapply fin_bind; [apply fin_is_next|]. intros b s1 ->.
  destruct b; [exact I|].
  eapply fin_bind; [apply Hfun; lia|]. intros f s2 Hlt; cbv beta in Hlt.
  eapply fin_bind; [apply IH; lia|]. intros fs s3 _. exact I.
Qed.

Lemma parse_finishes (n : nat) (src : list ascii) :
  20 * length src + 37 <= n ->
  finishes_at (parse n) (fun _ _ => True)
              {| lexer := Lexer_init src; token := (_SOI, []) |}.
Proof.
  intros Hn. unfold parse.
  eapply fin_bind; [apply fin_get_position|]. intros p s1 ->.
  eapply fin_bind; [apply fin_eat_le|]. intros v s2 Hle. simpl in Hle.
  eapply fin_bind; [apply gen_functions_finishes; lia|]. intros fs s3 _.
  eapply fin_bind; [apply fin_eat_any|]. intros v' s4 _.
  exact I.
Qed.

(** X19.  [Parser(text).parse()] always comes back, with a tree or with an
    exception: the recursion of the descent is never deeper than
    [20 * len(text) + 37] calls, and the outcome is the same with any deeper
    bound. *)
Theorem parse_terminates (src : list ascii) (k : nat) :
  parse_text (20 * length src + 37) src <> Incomplete
  /\ parse_text (20 * length src + 37 + k) src
     = parse_text (20 * length src + 37) src.
Proof.
  assert (parse_text (20 * length src + 37) src <> Incomplete) as Hfin.
  { pose proof (parse_finishes (20 * length src + 37) src (le_n _)) as H.
    unfold finishes_at in H. unfold parse_text, run, Parser_init.
    destruct (parse _ _); [discriminate|discriminate|contradiction]. }
  split; [exact Hfin|now apply parse_text_more_fuel].
Qed.

(** ** The text a tree is displayed as *)

Lemma layout_app (n : nat) (a b : list (nat * list ascii)) :
  layout n (a ++ b) = layout n a ++ layout n b.
Proof. unfold layout. now rewrite map_app, concat_app. Qed.

Lemma layout_deeper (n : nat) (rows : list (nat * list ascii)) :
  layout n (deeper rows) = layout (n + 1) rows.
Proof.
  unfold layout, deeper. rewrite map_map. f_equal.
  apply map_ext; intros [d t]; simpl.
  now replace (n + S d) with (n + 1 + d) by lia.
Qed.

Lemma deeper_below (rows : list (nat * list ascii)) :
  Forall (fun r => 1 <= fst r) (deeper rows).
Proof.
  unfold deeper. apply Forall_forall. intros r Hr.
  apply in_map_iff in Hr as ([d t] & <- & _). simpl; lia.
Qed.

Lemma layout_head (n : nat) (t : list ascii) (rows : list (nat * list ascii)) :
  layout n ((0, t) :: rows) = indent n ++ t ++ [newline] ++ layout n rows.
Proof.
  unfold layout; simpl. rewrite Nat.add_0_r. now rewrite <- ?app_assoc.
Qed.

Section DisplayRows.
Variable float_str : Q -> list ascii.

Lemma display_each_rows (l : list node) :
  Forall (shown_as_rows float_str) l ->
  exists rows,
    Forall (fun r => 1 <= fst r) rows
    /\ forall n,
         concat (map (fun node => display float_str node (n + 1)) l)
         = layout n rows.
Proof.
  induction 1 as [|c l (rows & Hc) _ (rest & Hbelow & Hrest)].
  - exists []; split; [constructor|reflexivity].
  - exists (deeper rows ++ rest); split.
    + apply Forall_app; split; [apply deeper_below|exact Hbelow].
    + intros n; simpl.
      now rewrite layout_app, layout_deeper, Hc, Hrest.
Qed.

Lemma display_child_rows (c : node) :
  (shown_as_rows float_str) c ->
  exists rows,
    Forall (fun r => 1 <= fst r) rows
    /\ forall n, display float_str c (n + 1) = layout n rows.
Proof.
  intros (rows & Hc). exists (deeper rows); split; [apply deeper_below|].
  intros n. now rewrite layout_deeper.
Qed.

Lemma display_rows_aux (self : node) :
  exists t rows,
    Forall (fun r => 1 <= fst r) rows
    /\ forall n, display float_str self n = layout n ((0, t) :: rows).
Proof.
  induction self as [self IH] using node_children_ind.
  assert (forall c, In c (children self) -> (shown_as_rows float_str) c) as Hch.
  { intros c Hin. rewrite Forall_forall in IH.
    destruct (IH c Hin) as (t & rows & _ & H). now exists ((0, t) :: rows). }
  assert (forall l, incl l (children self) -> Forall (shown_as_rows float_str) l) as Hall.
  { intros l Hl. apply Forall_forall. intros c Hc. apply Hch, Hl, Hc. }
  clear IH.
  destruct self as [sp ident|sp ident e|sp v|sp l op r|sp op e|sp e|sp b
                    |sp c b|sp ident|sp name a b|sp name a|sp ident a];
    simpl in Hch, Hall.
  - exists (text "var " ++ ident), []; split; [constructor|].
    intros n; rewrite layout_head; simpl. now rewrite <- ?app_assoc, ?app_nil_r.
  - destruct (display_child_rows e) as (re & Hbe & He); [apply Hch; auto|].
    exists (text "var " ++ ident ++ text " ="), re; split; [exact Hbe|].
    intros n; rewrite layout_head; cbn [display].
    now rewrite He, <- ?app_assoc.
  - exists (float_str v), []; split; [constructor|].
    intros n; rewrite layout_head; simpl. now rewrite ?app_nil_r.
  - destruct (display_child_rows l) as (rl & Hbl & Hl); [apply Hch; auto|].
    destruct (display_child_rows r) as (rr & Hbr & Hr); [apply Hch; auto|].
    exists (BinaryOperation_str op), (rl ++ rr); split;
      [apply Forall_app; auto|].
    intros n; rewrite layout_head, layout_app; cbn [display].
    now rewrite Hl, Hr.
  - destruct (display_child_rows e) as (re & Hbe & He); [apply Hch; auto|].
    exists (UnaryOperation_str op), re; split; [exact Hbe|].
    intros n; rewrite layout_head; cbn [display]. now rewrite He.
  - destruct (display_child_rows e) as (re & Hbe & He); [apply Hch; auto|].
    exists (text "return"), re; split; [exact Hbe|].
    intros n; rewrite layout_head; cbn [display]. now rewrite He.
  - destruct (display_each_rows b) as (rb & Hbb & Hb);
      [apply Hall, incl_refl|].
    exists (text "block"), rb; split; [exact Hbb|].
    intros n; rewrite layout_head; cbn [display]. now rewrite Hb.
  - destruct (display_child_rows c) as (rc & Hbc & Hc); [apply Hch; auto|].
    destruct (display_child_rows b) as (rb & Hbb & Hb);
      [apply Hch; simpl; auto|].
    exists (text "while"), (rc ++ rb); split; [apply Forall_app; auto|].
    intros n; rewrite layout_head, layout_app; cbn [display].
    now rewrite Hc, Hb.
  - exists ident, []; split; [constructor|].
    intros n; rewrite layout_head; simpl. now rewrite ?app_nil_r.
  - destruct (display_child_rows b) as (rb & Hbb & Hb);
      [apply Hch, in_or_app; right; simpl; auto|].
    exists (text "function " ++ name ++ text "(nargs=" ++ str (length a)
                 ++ text ")"), rb; split; [exact Hbb|].
    intros n; rewrite layout_head; cbn [display].
    now rewrite Hb, <- ?app_assoc.
  - exists (text "extern function " ++ name ++ text "(nargs="
                 ++ str (length a) ++ text ")"), []; split; [constructor|].
    intros n; rewrite layout_head; cbn [display].
    now rewrite <- ?app_assoc, ?app_nil_r.
  - destruct (display_each_rows a) as (ra & Hba & Ha);
      [apply Hall, incl_refl|].
    exists (text "call " ++ ident), ra; split; [exact Hba|].
    intros n; rewrite layout_head; cbn [display].
    now rewrite Ha, <- ?app_assoc.
Qed.

End DisplayRows.

(** X20.  [display(n)] lays a tree out as rows of text, one after the other
    and each ended by a newline: the first row is the node's own, under [n]
    levels of indentation, every other row lies deeper, and going from [n] to
    another depth changes nothing but the indentation of each row, by the
    same number of levels.  [str(node)] is the layout at depth 0. *)
Theorem display_is_indented_rows (float_str : Q -> list ascii) (self : node) :
  exists t rows,
    Forall (fun r => 1 <= fst r) rows
    /\ (forall n, display float_str self n = layout n ((0, t) :: rows))
    /\ node_str float_str self = layout 0 ((0, t) :: rows).
Proof.
  destruct (display_rows_aux float_str self) as (t & rows & Hbelow & Hrows).
  exists t, rows; split; [exact Hbelow|split; [exact Hrows|apply Hrows]].
Qed.

(** ** A parser built with [incomplete=True] *)

Lemma Lexer_next_kind (self : Lexer) (k : kind) (g : list ascii) (self' : Lexer) :
  Lexer_next self = Yield (k, g) self' -> k <> _EOI /\ k <> _SOI.
Proof.
  unfold Lexer_next. destruct (length (rest self) =? 0); [discriminate|].
  intros Hn. destruct (next_loop_scanned _ _ _ _ Hn) as (s0 & Hs).
  now apply scan_rules_kind in Hs.
Qed.

Lemma kind_beq_neq (a b : kind) : a <> b -> kind_beq a b = false.
Proof.
  intros Hne. destruct (kind_beq a b) eqn:Hk; [|reflexivity].
  now apply kind_beq_eq in Hk.
Qed.

(** The constructor reads the first token at once: it raises
    [StopIteration] on a text of blanks, a [ParseError] when no token starts
    at the first character that is not a blank, and otherwise leaves a
    parser whose lookahead is a token of the text. *)
Lemma Parser_init_incomplete (src : list ascii) :
  match Parser_init src true with
  | Done _ self =>
      parser_inv src self /\ fst (token self) <> _SOI
      /\ fst (token self) <> _EOI /\ forallb blank src = false
      /\ remaining self <= length src
  | Throw e =>
      if forallb blank src then e = StopIteration else is_parse_error e
  | NoFuel => False
  end.
Proof.
  unfold Parser_init.
  pose proof (Lexer_next_parts (Lexer_init src)) as Hparts.
  pose proof (Lexer_next_total (Lexer_init src)) as Htot.
  pose proof (Lexer_next_token_ok src
                {| lexer := Lexer_init src; token := (_SOI, []) |} eq_refl)
    as Hok.
  cbn [lexer] in Hok.
  destruct (Lexer_next (Lexer_init src)) as [[k g] lx|lx|e|] eqn:Hn;
    [| | |contradiction].
  - destruct (Lexer_next_kind _ _ _ _ Hn) as (Heoi & Hsoi).
    pose proof (Lexer_next_yield _ _ _ Hn) as (_ & Hlt & _).
    destruct Hparts as (ws & c & g' & Hr & _ & -> & Hc & _).
    apply starts_token_solid in Hc. simpl in Hr, Hlt.
    repeat split; try apply Hok; simpl; auto.
    + rewrite Hr, forallb_app. simpl. rewrite Hc. apply andb_false_r.
    + unfold remaining; simpl. rewrite (kind_beq_neq _ _ Heoi). lia.
  - destruct Hparts as (Hbl & _). simpl in Hbl. now rewrite Hbl.
  - destruct Hparts as (ws & c & t & sk & Hr & _ & _ & Hc & -> & _).
    simpl in Hr. rewrite Hr, forallb_app. simpl. rewrite Hc, andb_false_r.
    apply parse_error_here_is_parse_error.
Qed.

(** X21.  A parser built with [incomplete=True] cannot run [parse]: the
    constructor has read the first token, so the [_SOI] that [parse] eats
    first is never there.  On a text of blanks the constructor itself has
    raised [StopIteration]; on any other text a [ParseError] comes out. *)
Theorem incomplete_parser_cannot_parse (src : list ascii) (n : nat) :
  exists e,
    run (parse n) (Parser_init src true) = Throw e
    /\ if forallb blank src then e = StopIteration else is_parse_error e.
Proof.
  pose proof (Parser_init_incomplete src) as Hinit.
  destruct (Parser_init src true) as [[] self|e|];
    [|exists e; split; [reflexivity|exact Hinit]|contradiction].
  destruct Hinit as (_ & Hsoi & Heoi & Hbl & _). rewrite Hbl.
  unfold run, parse, bind, get_position, eat.
  rewrite (kind_beq_neq _ _ Hsoi), (kind_beq_neq _ _ Heoi).
  eexists; split; [reflexivity|].
  apply parse_error_here_is_parse_error.
Qed.

(** X22.  A parser built with [incomplete=True] parses a fragment:
    [parse_expression] comes back with an expression, or a [ParseError] is
    raised; on a text of blanks, and only there, the constructor raises
    [StopIteration]. *)
Theorem incomplete_parse_expression (src : list ascii) (k : nat) :
  match run (parse_expression (20 * length src + 10 + k))
            (Parser_init src true) with
  | Done a _ => is_expression a = true /\ forallb blank src = false
  | Throw e =>
      if forallb blank src then e = StopIteration else is_parse_error e
  | NoFuel => False
  end.
Proof.
  pose proof (Parser_init_incomplete src) as Hinit.
  destruct (Parser_init src true) as [[] self|e|];
    [|exact Hinit|contradiction].
  destruct Hinit as (HI & _ & _ & Hbl & Hrem). rewrite Hbl.
  destruct (descent_sound_all src (20 * length src + 10 + k))
    as (_ & _ & _ & _ & _ & _ & Hsound & _).
  destruct (descent_finishes_all (20 * length src + 10 + k))
    as (_ & _ & _ & _ & _ & _ & Hfin & _).
  specialize (Hsound self HI). specialize (Hfin self ltac:(lia)).
  unfold sound_at in Hsound. unfold finishes_at in Hfin. unfold run.
  destruct (parse_expression _ self) as [a s|e|];
    [split; [apply Hsound|reflexivity]|exact Hsound|exact Hfin].
Qed.
